(** * Stochastic spatio-temporal growth model: the simulation notebook

    A shallow embedding of [Code/simulation.ipynb]: the three non-spatial
    cells (three-value, log-uniform and binary growth factors), which share
    one time-evolution loop, and the spatial-diffusion cell.

    The notebook computes on numpy [float64] arrays.  The code is embedded
    once, over an interface [Arith] of the arithmetic it uses, and read at two
    instances: the real numbers ([R], the exact arithmetic in which the
    algebraic statements of the design are meant) and IEEE binary64
    ([float], the arithmetic the notebook runs, on which the cells are
    evaluated on concrete inputs). *)

From Stdlib Require Import ZArith List Reals Lra Lia Floats Permutation.
From stdpp Require Import base option list.

(** ** Arithmetic *)

Class Arith (A : Type) := {
  of_int : Z -> A;          (* a Python int met by a float operand *)
  add : A -> A -> A;
  sub : A -> A -> A;
  mul : A -> A -> A;
  div : A -> A -> A }.

(** [exp], [log] and [**], used by the log-uniform sampler and by the
    binary model's parameters. *)
Class Elementary (A : Type) := {
  np_exp : A -> A;
  np_log : A -> A;
  pow : A -> A -> A }.

#[export] Instance Arith_R : Arith R :=
  {| of_int := IZR; add := Rplus; sub := Rminus; mul := Rmult; div := Rdiv |}.

(** [x ** y] on a positive base is [exp (y * ln x)]. *)
#[export] Instance Elementary_R : Elementary R :=
  {| np_exp := exp; np_log := ln; pow := Rpower |}.

Definition float_of_int (z : Z) : float :=
  match z with
  | Z0 => PrimFloat.zero
  | Zpos _ => PrimFloat.of_uint63 (Uint63.of_Z z)
  | Zneg p => PrimFloat.opp (PrimFloat.of_uint63 (Uint63.of_Z (Zpos p)))
  end.

#[export] Instance Arith_float : Arith float :=
  {| of_int := float_of_int; add := PrimFloat.add; sub := PrimFloat.sub;
     mul := PrimFloat.mul; div := PrimFloat.div |}.

(** ** Array operations of numpy, on one axis *)

Section Arrays.
Context {A : Type} `{Arith A}.

(** [np.prod]: the multiplicative reduction; [1] on an empty axis. *)
Definition prod (l : list A) : A :=
  match l with
  | [] => of_int 1
  | x :: l' => fold_left mul l' x
  end.

(** [np.sum]: the additive reduction; [0] on an empty axis.  numpy adds a
    long axis in blocks (pairwise): the order changes the rounding of a
    [float64] sum, not a sum of real numbers, and not a sum of fewer than
    eight entries, which numpy adds from left to right as here. *)
Definition sum (l : list A) : A :=
  match l with
  | [] => of_int 0
  | x :: l' => fold_left add l' x
  end.

Fixpoint cumprod_from (acc : A) (l : list A) : list A :=
  match l with
  | [] => []
  | x :: l' => let acc' := mul acc x in acc' :: cumprod_from acc' l'
  end.

(** [np.cumprod]: the running products [x1, x1*x2, ...]. *)
Definition cumprod (l : list A) : list A :=
  match l with
  | [] => []
  | x :: l' => x :: cumprod_from x l'
  end.

(** ** The non-spatial macro step, for one (species, site) cell

    [current * np.prod(g, axis=2)
       + c * np.sum(np.cumprod(g[:, :, 1:][:, :, ::-1], axis=2), axis=2) + c]
    read at one cell: [g] is the cell's [tau] factors, [g[1:]] is [tail g]
    and [[::-1]] is [rev]. *)
Definition update_cell (c : A) (current : A) (g : list A) : A :=
  add (add (mul current (prod g))
           (mul c (sum (cumprod (rev (tail g))))))
      c.

(** The sub-step recurrence [x <- g_k * x + c], for [k = 1..tau]. *)
Definition substeps (c : A) (g : list A) (x : A) : A :=
  fold_left (fun x gk => add (mul gk x) c) g x.

(** The closed form in the words of the design:
    [old * prod(g_1..g_tau)
       + c * sum_{k=1}^{tau-1} prod(g_{k+1}..g_tau) + c]. *)
Definition closed_form (c : A) (old : A) (g : list A) : A :=
  add (add (mul old (prod g))
           (mul c (sum (map (fun k => prod (drop k g))
                            (seq 1 (length g - 1))))))
      c.
End Arrays.

(** ** Outcomes of a cell *)

(** The error kinds named by the design, and Python's [IndexError], which
    the array statements of the cells raise (a column is assigned in an array
    allocated with no column, when [dp = 0]).  numpy's arithmetic on arrays
    raises nothing under its default error state: an overflow or a division
    by zero yields [inf] or [nan].

    Scope.  Three kinds of exception of the notebook lie outside the
    embedding, which describes the runs in which the calls concerned
    return: the [ValueError] of numpy's generators on arguments they refuse
    (a negative seed, an empty list of values, a [p] that is not a
    probability vector over the values); the [ZeroDivisionError] and
    [OverflowError] of Python's own [/] and [**] on the scalar parameters
    ([alpha = 0] in [p_up] and in [g0]); and the failures of [fsolve].
    The statements below are to be read on the arguments these calls
    accept. *)
Inductive error : Type :=
  | InvalidParameter
  | NumericDivergence
  | NumericOverflow
  | DivisionByZero
  | IndexError.

Inductive outcome (T : Type) : Type :=
  | Returned (x : T)
  | Raised (e : error).
Arguments Returned {T} x.
Arguments Raised {T} e.

#[export] Instance outcome_ret : MRet outcome := fun _ x => Returned x.
#[export] Instance outcome_bind : MBind outcome := fun _ _ f m =>
  match m with
  | Returned x => f x
  | Raised e => Raised e
  end.

(** A [for] loop whose body may raise. *)
Fixpoint for_each {St T : Type} (body : St -> T -> outcome St)
    (l : list T) (st : St) : outcome St :=
  match l with
  | [] => Returned st
  | x :: l' => st' ← body st x; for_each body l' st'
  end.

(** ** Random generators

    numpy's generators are not part of the notebook: they are an interface.
    A cell holds two of them: the generator [rng] it creates from its seed
    with [np.random.default_rng(seed)], of state [Gen], and numpy's global
    generator behind [np.random.randint] and [np.random.uniform], of state
    [Glob], which the cell neither creates nor seeds.  Each operation makes
    one draw and returns the advanced state; an array of draws is filled in
    C order by consecutive draws.  The operations are those of numpy on the
    arguments numpy accepts; its refusals ([ValueError]) are not part of the
    interface. *)
Class Sampler (A Gen Glob : Type) := {
  default_rng : Z -> Gen;
  rng_integers : Z -> Z -> Gen -> Z * Gen;           (* rng.integers(low, high) *)
  rng_choice : list A -> list A -> Gen -> A * Gen;   (* rng.choice(values, p=probabilities) *)
  np_random_randint : Z -> Z -> Glob -> Z * Glob;    (* np.random.randint(low, high) *)
  np_random_uniform : A -> A -> Glob -> A * Glob }.  (* np.random.uniform(low, high) *)

(** What numpy documents of the draws: [integers] and [randint] return a
    value of the half-open interval [[low, high)], and [choice] returns one of
    the values it is given. *)
Class SamplerLaws {A Gen Glob : Type} (Smp : Sampler A Gen Glob) : Prop := {
  rng_integers_range : forall lo hi s,
    (lo < hi)%Z -> (lo <= (rng_integers lo hi s).1 < hi)%Z;
  np_random_randint_range : forall lo hi s,
    (lo < hi)%Z -> (lo <= (np_random_randint lo hi s).1 < hi)%Z;
  rng_choice_elem : forall values p s,
    values <> [] -> In (rng_choice values p s).1 values }.

(** [n] consecutive draws. *)
Fixpoint draws {St T : Type} (one : St -> T * St) (n : nat) (s : St)
    : list T * St :=
  match n with
  | O => ([], s)
  | S n' =>
      let (x, s1) := one s in
      let (xs, s2) := draws one n' s1 in
      (x :: xs, s2)
  end.

(** The state of a generator after [k] draws, and the [k]-th value drawn. *)
Definition after_draws {St T : Type} (one : St -> T * St) (k : nat) (s : St) : St :=
  Nat.iter k (fun s => (one s).2) s.
Definition nth_draw {St T : Type} (one : St -> T * St) (k : nat) (s : St) : T :=
  (one (after_draws one k s)).1.

(** The two generators a cell holds. *)
Record world (Gen Glob : Type) : Type := World {
  rng : Gen;
  np_random : Glob }.
Arguments World {Gen Glob} rng np_random.
Arguments rng {Gen Glob} w.
Arguments np_random {Gen Glob} w.

(** A counter-based generator, on which the cells run on concrete inputs:
    the state counts the draws made; [integers] walks through
    [[low, high)], [choice] through the values, and [uniform] returns the
    two ends of its interval in turn. *)
Definition counter_integers (lo hi : Z) (s : nat) : Z * nat :=
  ((lo + Z.of_nat s mod (hi - lo))%Z, S s).
Definition counter_choice {A : Type} `{Arith A} (values p : list A) (s : nat)
    : A * nat :=
  (nth (s mod length values) values (of_int 0), S s).
Definition counter_uniform {A : Type} (lo hi : A) (s : nat) : A * nat :=
  (if Nat.even s then lo else hi, S s).

#[export] Instance counter_sampler {A : Type} `{Arith A} : Sampler A nat nat :=
  {| default_rng := Z.abs_nat;
     rng_integers := counter_integers;
     rng_choice := counter_choice;
     np_random_randint := counter_integers;
     np_random_uniform := counter_uniform |}.

(** ** The non-spatial cells *)

Section NonSpatial.
Context {A Gen Glob : Type} `{Arith A} `{Sampler A Gen Glob}.

(** The loop's variables: the generators, [current] (S x M) and [N]
    (S x dp). *)
Record state : Type := State {
  st_world : world Gen Glob;
  current : list (list A);
  N : list (list A) }.

(** What a cell leaves behind: [N], [G], the last [current] and the
    generators. *)
Record result : Type := Result {
  res_N : list (list A);
  res_G : list (list A);
  res_current : list (list A);
  res_world : world Gen Glob }.

(** A sampler of one macro step's factors, of shape (S, M, tau). *)
Definition factor_sampler : Type :=
  world Gen Glob -> list (list (list A)) * world Gen Glob.

(** [g = rng.choice(values, size=(S, M, tau), p=probabilities)] *)
Definition choice_factors (values probabilities : list A) (S M tau : nat)
  : factor_sampler := fun w =>
  let (g, r) := draws (draws (draws (rng_choice values probabilities) tau) M) S (rng w) in
  (g, World r (np_random w)).

(** [np.zeros((rows, cols))] *)
Definition zeros (rows cols : nat) : list (list A) :=
  replicate rows (replicate cols (of_int 0)).

(** [a[:, t] = v].  The column is in range wherever the cells assign one
    ([t < dp]); out of range [<[t:=x]>] leaves the row as it is. *)
Definition set_column (t : nat) (v : list A) (a : list (list A))
  : list (list A) :=
  zip_with (fun row x => <[t:=x]> row) a v.

(** The body of [for t in range(1, dp)]. *)
Definition macro_step (sample : factor_sampler) (c : A) (st : state) (t : nat)
  : state :=
  let (g, w) := sample (st_world st) in
  let current' := zip_with (zip_with (update_cell c)) (current st) g in
  State w current' (set_column t (map sum current') (N st)).

(** The state after the first [k] iterations of the loop. *)
Definition evolve (sample : factor_sampler) (c : A) (k : nat) (st : state)
  : state :=
  fold_left (macro_step sample c) (seq 1 k) st.

(** [G = N[:, 1:] / N[:, :-1]] *)
Definition growth_rates (N : list (list A)) : list (list A) :=
  map (fun row => zip_with div (tail row) (take (length row - 1) row)) N.

(** [current = rng.integers(1, 10, size=(S, M))] *)
Definition initial_abundance (S M : nat) (seed : Z) : list (list Z) * Gen :=
  draws (draws (rng_integers 1 10) M) S (default_rng seed).

(** The variables as the loop finds them: [current] is the array of
    integers just drawn, and [N[:, 0]] its sums over the sites. *)
Definition initial_state (dp M S : nat) (seed : Z) (glob : Glob) : state :=
  let (init, r) := initial_abundance S M seed in
  State (World r glob)
        (map (map of_int) init)
        (set_column 0 (map (fun row => of_int (foldr Z.add 0%Z row)) init)
                    (zeros S dp)).

(** The statements the three cells share, from [rng = ...] to [G = ...].
    [N[:, 0] = ...] raises when [N] has no column; the generators are taken
    on arguments they accept. *)
Definition accumulate (sample : factor_sampler) (dp M S : nat) (c : A)
    (seed : Z) (glob : Glob) : outcome result :=
  match dp with
  | O => Raised IndexError
  | _ =>
      let st := evolve sample c (dp - 1) (initial_state dp M S seed glob) in
      Returned (Result (N st) (growth_rates (N st)) (current st) (st_world st))
  end.

(** The three-value and binary cells after their parameters. *)
Definition choice_run (dp : nat) (values probabilities : list A)
    (M tau S : nat) (c : A) (seed : Z) (glob : Glob) : outcome result :=
  accumulate (choice_factors values probabilities S M tau) dp M S c seed glob.

Section WithElementary.
Context `{Elementary A}.

(** The three-value cell: [p_up], [p_stay] and the values, then the shared
    statements.  [p_up] is computed on Python's scalars, whose [/] raises
    on a zero divisor ([alpha = 0]): the definition gives the cell where
    that division returns. *)
Definition three_value_cell (dp : nat) (alpha p_down : A) (M tau S : nat)
    (c : A) (seed : Z) (glob : Glob) : outcome result :=
  let p_up :=
    div (mul p_down (sub (of_int 1) (pow (of_int 2) (sub (of_int 0) alpha))))
        (sub (pow (of_int 2) alpha) (of_int 1)) in
  let p_stay := sub (sub (of_int 1) p_down) p_up in
  let values := [div (of_int 1) (of_int 2); of_int 1; of_int 2] in
  choice_run dp values [p_down; p_stay; p_up] M tau S c seed glob.

(** [g0 = (2/(1+gamma**alpha))**(1/alpha)] and [g1 = gamma*g0] *)
Definition binary_g0 (gamma alpha : A) : A :=
  pow (div (of_int 2) (add (of_int 1) (pow gamma alpha)))
      (div (of_int 1) alpha).
Definition binary_g1 (gamma alpha : A) : A :=
  mul gamma (binary_g0 gamma alpha).

(** The binary cell, where the scalar computation of [g0] returns
    ([alpha <> 0], [1 + gamma**alpha <> 0]). *)
Definition binary_cell (dp : nat) (alpha gamma : A) (M tau S : nat)
    (c : A) (seed : Z) (glob : Glob) : outcome result :=
  let p0 := div (of_int 1) (of_int 2) in
  let p1 := div (of_int 1) (of_int 2) in
  choice_run dp [binary_g0 gamma alpha; binary_g1 gamma alpha] [p0; p1]
             M tau S c seed glob.

(** [log_uniform(low, high, size)], with [size = (S, M, tau)]:
    [np.exp(np.random.uniform(np.log(low), np.log(high), size))] *)
Definition log_uniform (low high : A) (S M tau : nat) : factor_sampler :=
  fun w =>
  let (u, gl) :=
    draws (draws (draws (np_random_uniform (np_log low) (np_log high)) tau) M) S
          (np_random w) in
  (map (map (map np_exp)) u, World (rng w) gl).

(** The log-uniform cell after its bounds. *)
Definition log_uniform_run (dp : nat) (low high : A) (M tau S : nat)
    (c : A) (seed : Z) (glob : Glob) : outcome result :=
  accumulate (log_uniform low high S M tau) dp M S c seed glob.

(** The log-uniform cell; scipy's root finder [fsolve] is an argument. *)
Definition log_uniform_cell (fsolve : (A -> A) -> A -> A) (dp : nat)
    (alpha e initial_guess : A) (M tau S : nat) (c : A) (seed : Z)
    (glob : Glob) : outcome result :=
  let equation b :=
    sub (div (sub (np_exp (mul (add b e) alpha))
                  (np_exp (mul (add (sub (of_int 0) b) e) alpha)))
             (mul (mul (of_int 2) b) alpha))
        (of_int 1) in
  let b := fsolve equation initial_guess in
  let low := np_exp (add (sub (of_int 0) b) e) in
  let high := np_exp (add b e) in
  log_uniform_run dp low high M tau S c seed glob.
End WithElementary.
End NonSpatial.

Arguments state A Gen Glob : clear implicits.
Arguments result A Gen Glob : clear implicits.
Arguments factor_sampler A Gen Glob : clear implicits.

(** ** The spatial-diffusion cell *)

Section Spatial.
Context {A Gen Glob : Type} `{Arith A} `{Sampler A Gen Glob}.

(** [a[i, t]] and [g[i]], read. *)
Definition read2 (a : list (list A)) (i t : nat) : outcome A :=
  match a !! i ≫= (.!! t) with
  | Some x => Returned x
  | None => Raised IndexError
  end.
Definition read1 (g : list A) (i : nat) : outcome A :=
  match g !! i with
  | Some x => Returned x
  | None => Raised IndexError
  end.

(** [a[i, t] = v], in place. *)
Definition write2 (a : list (list A)) (i t : nat) (v : A)
  : outcome (list (list A)) :=
  match a !! i with
  | Some row =>
      if decide (t < length row) then Returned (<[i:=<[t:=v]> row]> a)
      else Raised IndexError
  | None => Raised IndexError
  end.

(** The body of the loops over [i] and [j], on the array [allxs] it
    reads and writes.  The indices are computed on Python's integers, whose
    [%] is the floored modulo [Z.modulo]; none of them is negative. *)
Definition lattice_update (L : nat) (c d : A) (t : nat) (g : list A)
    (allxs : list (list A)) (ij : nat * nat) : outcome (list (list A)) :=
  let (i, j) := ij in
  let ai := ((Z.of_nat i - 1) mod Z.of_nat L)%Z in
  let bj := ((Z.of_nat j + 1) mod Z.of_nat L)%Z in
  let ci := ((Z.of_nat i + 1) mod Z.of_nat L)%Z in
  let dj := ((Z.of_nat j - 1) mod Z.of_nat L)%Z in
  let ind := Z.to_nat (Z.of_nat i * Z.of_nat L + Z.of_nat j) in
  let ind_a := Z.to_nat (ai * Z.of_nat L + Z.of_nat j) in
  let ind_b := Z.to_nat (Z.of_nat i * Z.of_nat L + bj) in
  let ind_c := Z.to_nat (ci * Z.of_nat L + Z.of_nat j) in
  let ind_d := Z.to_nat (Z.of_nat i * Z.of_nat L + dj) in
  x ← read2 allxs ind (t - 1);
  xa ← read2 allxs ind_a (t - 1);
  xb ← read2 allxs ind_b (t - 1);
  xc ← read2 allxs ind_c (t - 1);
  xd ← read2 allxs ind_d (t - 1);
  gi ← read1 g ind;
  write2 allxs ind t
    (add (mul (add (mul (sub (of_int 1) (mul (of_int 4) d)) x)
                   (mul d (add (add (add xa xb) xc) xd)))
              gi)
         c).

(** [for i in range(L): for j in range(L): ...] *)
Definition lattice_sweep (L : nat) (c d : A) (t : nat) (g : list A)
    (allxs : list (list A)) : outcome (list (list A)) :=
  for_each
    (fun a i => for_each (fun a j => lattice_update L c d t g a (i, j)) (seq 0 L) a)
    (seq 0 L) allxs.

(** The same body run over the cells in a given order. *)
Definition lattice_sweep_in (order : list (nat * nat)) (L : nat) (c d : A)
    (t : nat) (g : list A) (allxs : list (list A)) : outcome (list (list A)) :=
  for_each (lattice_update L c d t g) order allxs.

(** The cells in the order of the two loops. *)
Definition cells (L : nat) : list (nat * nat) :=
  flat_map (fun i => map (fun j => (i, j)) (seq 0 L)) (seq 0 L).

(** The loop's variables: the generators and [allxs] (L*L x dp). *)
Record lattice : Type := Lattice {
  lat_world : world Gen Glob;
  allxs : list (list A) }.

(** [g = rng.choice(values, size=L * L, p=probabilities)] *)
Definition lattice_factors (values probabilities : list A) (L : nat)
    (r : Gen) : list A * Gen :=
  draws (rng_choice values probabilities) (L * L) r.

(** The body of [for t in range(1, dp)]. *)
Definition lattice_step (values probabilities : list A) (L : nat) (c d : A)
    (st : lattice) (t : nat) : outcome lattice :=
  let (g, r) := lattice_factors values probabilities L (rng (lat_world st)) in
  a ← lattice_sweep L c d t g (allxs st);
  mret (Lattice (World r (np_random (lat_world st))) a).

(** [np.random.randint(1,10,size=L*L)] *)
Definition initial_lattice (L : nat) (glob : Glob) : list Z * Glob :=
  draws (np_random_randint 1 10) (L * L) glob.

(** The variables as the loop finds them.  [allxs[:, 0] = ...] raises when
    [allxs] has no column. *)
Definition initial_lattice_state (dp L : nat) (seed : Z) (glob : Glob)
  : outcome lattice :=
  let r := default_rng seed in
  let (init, gl) := initial_lattice L glob in
  match dp with
  | O => Raised IndexError
  | _ =>
      Returned
        (Lattice (World r gl)
                 (set_column 0 (map of_int init) (zeros (L * L) dp)))
  end.

(** The state after the first [k] iterations of the loop over [t]. *)
Definition lattice_evolve (values probabilities : list A) (L : nat) (c d : A)
    (k : nat) (st : lattice) : outcome lattice :=
  for_each (lattice_step values probabilities L c d) (seq 1 k) st.

(** The spatial cell after its parameters, the generators taken on
    arguments they accept. *)
Definition spatial_run (dp : nat) (values probabilities : list A) (L : nat)
    (c d : A) (seed : Z) (glob : Glob) : outcome lattice :=
  st ← initial_lattice_state dp L seed glob;
  lattice_evolve values probabilities L c d (dp - 1) st.

Definition spatial_cell `{Elementary A} (dp : nat) (alpha : A) (L : nat)
    (p0 : A) (c d : A) (seed : Z) (glob : Glob) : outcome lattice :=
  let p2 :=
    div (mul p0 (sub (of_int 1) (pow (of_int 2) (sub (of_int 0) alpha))))
        (sub (pow (of_int 2) alpha) (of_int 1)) in
  let p1 := sub (sub (of_int 1) p0) p2 in
  let values := [div (of_int 1) (of_int 2); of_int 1; of_int 2] in
  spatial_run dp values [p0; p1; p2] L c d seed glob.

(** The four neighbours on the torus, without [%]. *)
Definition before (L i : nat) : nat := if (i =? 0)%nat then L - 1 else i - 1.
Definition after (L i : nat) : nat := if (i + 1 =? L)%nat then 0 else i + 1.

(** The update of the design, from the values [old] of the step before:
    [((1 - 4d) * old + d * (north + east + south + west)) * g + c]. *)
Definition diffusion (c d : A) (x xa xb xc xd gi : A) : A :=
  add (mul (add (mul (sub (of_int 1) (mul (of_int 4) d)) x)
                (mul d (add (add (add xa xb) xc) xd)))
           gi)
      c.
End Spatial.

Arguments lattice A Gen Glob : clear implicits.

(** ** The vocabulary of the statements *)

(** [a[i, j]], when both indices are in range. *)
Definition at2 {T : Type} (a : list (list T)) (i j : nat) : option T :=
  a !! i ≫= (.!! j).

(** [a] has [rows] rows of [cols] entries. *)
Definition shape2 {T : Type} (rows cols : nat) (a : list (list T)) : Prop :=
  length a = rows /\ Forall (fun r => length r = cols) a.

(** [a] with [v] at [(i, t)]. *)
Definition set2 {T : Type} (a : list (list T)) (i t : nat) (v : T)
    : list (list T) :=
  match a !! i with
  | Some row => <[i:=<[t:=v]> row]> a
  | None => a
  end.

(** [a] and [b] have the same entries outside column [t]. *)
Definition same_off_column {A : Type} (t : nat) (a b : list (list A)) : Prop :=
  forall ind t', t' <> t -> at2 a ind t' = at2 b ind t'.

(** Products and sums of real numbers, from the right, and the sum of the
    products of the non-empty suffixes of [l]. *)
Definition Rprod (l : list R) : R := fold_right Rmult 1%R l.
Definition Rsum (l : list R) : R := fold_right Rplus 0%R l.
Fixpoint suffix_sum (l : list R) : R :=
  match l with
  | [] => 0%R
  | _ :: l' => (Rprod l + suffix_sum l')%R
  end.

(** Every entry of the array is positive. *)
Definition positive2 (a : list (list R)) : Prop :=
  forall s m x, at2 a s m = Some x -> (0 < x)%R.

(** The factors of cell [(s, m)] in a batch of shape [(S, M, tau)] drawn by
    [one] from the state [r]: [tau] consecutive draws, from number
    [(s * M + m) * tau] on. *)
Definition cell_factors {St T : Type} (one : St -> T * St) (M tau s m : nat)
    (r : St) : list T :=
  map (fun k => nth_draw one ((s * M + m) * tau + k) r) (seq 0 tau).

Section Vocabulary.
Context {A Gen Glob : Type} `{Arith A} `{Sampler A Gen Glob}.

(** A sampler that returns batches of [S] by [M] cells. *)
Definition shaped (S M : nat) (sample : factor_sampler A Gen Glob) : Prop :=
  forall w, shape2 S M (sample w).1.

Record well_shaped (S M dp : nat) (st : state A Gen Glob) : Prop := {
  ws_current : shape2 S M (current st);
  ws_N : shape2 S dp (N st) }.

(** What a run of a non-spatial cell computes, the state of the global
    generator left aside. *)
Definition computed (o : outcome (result A Gen Glob))
  : outcome (list (list A) * list (list A) * list (list A) * Gen) :=
  r ← o; mret (res_N r, res_G r, res_current r, rng (res_world r)).

Definition seeded_part (st : state A Gen Glob)
  : Gen * list (list A) * list (list A) :=
  (rng (st_world st), current st, N st).

(** The value the design gives cell [(i, j)] at step [t], from the values
    [old[., t - 1]] of the step before, those of the cell and of its four
    neighbours on the torus, and the cell's factor [g[i * L + j]]. *)
Definition diffused (L : nat) (c d : A) (old : list (list A)) (t : nat)
    (g : list A) (i j : nat) : option A :=
  x ← at2 old (i * L + j) (t - 1);
  xa ← at2 old (before L i * L + j) (t - 1);
  xb ← at2 old (i * L + after L j) (t - 1);
  xc ← at2 old (after L i * L + j) (t - 1);
  xd ← at2 old (i * L + before L j) (t - 1);
  gi ← g !! (i * L + j)%nat;
  Some (diffusion c d x xa xb xc xd gi).

(** The batch of factors of step [t] of the spatial cell: the generator
    made [L * L] draws in each of the [t - 1] steps before. *)
Definition batch (values p : list A) (L : nat) (seed : Z) (t : nat) : list A :=
  (lattice_factors values p L
     (after_draws (rng_choice values p) ((t - 1) * (L * L)) (default_rng seed))).1.
End Vocabulary.

(** Every factor of every batch is positive. *)
Definition positive_factors {Gen Glob : Type}
    (sample : factor_sampler R Gen Glob) : Prop :=
  forall w s m g, at2 (sample w).1 s m = Some g -> Forall (Rlt 0) g.

(** ** The parameters of the cells, by name *)

Section Parameters.
Context {A : Type} `{Arith A} `{Elementary A}.

(** [p_up = p_down * (1 - 2**(-alpha)) / (2**alpha - 1)] and
    [p_stay = 1 - p_down - p_up] of the three-value cell ([p2] and [p1] of
    the spatial cell), and [values = [1/2, 1, 2]]. *)
Definition three_value_p_up (alpha p_down : A) : A :=
  div (mul p_down (sub (of_int 1) (pow (of_int 2) (sub (of_int 0) alpha))))
      (sub (pow (of_int 2) alpha) (of_int 1)).
Definition three_value_p_stay (alpha p_down : A) : A :=
  sub (sub (of_int 1) p_down) (three_value_p_up alpha p_down).
Definition three_value_values : list A :=
  [div (of_int 1) (of_int 2); of_int 1; of_int 2].

(** [equation(b)] of the log-uniform cell, with the cell's [alpha] and [e],
    and the bounds [low = np.exp(-b + e)] and [high = np.exp(b + e)]. *)
Definition equation (alpha e b : A) : A :=
  sub (div (sub (np_exp (mul (add b e) alpha))
                (np_exp (mul (add (sub (of_int 0) b) e) alpha)))
           (mul (mul (of_int 2) b) alpha))
      (of_int 1).
Definition log_uniform_low (b e : A) : A := np_exp (add (sub (of_int 0) b) e).
Definition log_uniform_high (b e : A) : A := np_exp (add b e).
End Parameters.

(** What numpy documents of [np.random.uniform]: a value between [low] and
    [high] (the upper end may be returned, by rounding). *)
Class UniformLaws {Gen Glob : Type} (Smp : Sampler R Gen Glob) : Prop := {
  np_random_uniform_range : forall lo hi s,
    (lo <= hi)%R ->
    (lo <= (np_random_uniform lo hi s).1 <= hi)%R }.

(** The sum of the values of the cells of the lattice at step [t]. *)
Definition lattice_total (L : nat) (a : list (list R)) (t : nat) : R :=
  Rsum (map (fun ij : nat * nat => default 0%R (at2 a (ij.1 * L + ij.2) t))
            (cells L)).

(** The value of cell [(i, j)] at step [t], [0] outside the array. *)
Definition cell_value (L : nat) (a : list (list R)) (t i j : nat) : R :=
  default 0%R (at2 a (i * L + j) t).

(** A sum over [i] in [l1] of sums over [j] in [l2]. *)
Definition double_sum (l1 l2 : list nat) (F : nat -> nat -> R) : R :=
  Rsum (map (fun i => Rsum (map (F i) l2)) l1).

(** A [float64] that is not finite: [inf], [-inf] or [nan]
    ([not np.isfinite(x)]), and one that is a zero, [0.0] or [-0.0], read
    on the IEEE datum of [x]. *)
Definition non_finite (x : float) : bool :=
  match Prim2SF x with
  | S754_infinity _ | S754_nan => true
  | _ => false
  end.
Definition float_is_zero (x : float) : bool :=
  match Prim2SF x with
  | S754_zero _ => true
  | _ => false
  end.

(** ** Exact arithmetic: reductions over the reals *)

Section RealReductions.
Local Open Scope R_scope.

Lemma fold_left_mul_R (l : list R) (a : R) :
  fold_left Rmult l a = a * Rprod l.
Proof.
  revert a; induction l as [|x l IH]; intros a; simpl.
  - lra.
  - rewrite IH. lra.
Qed.

Lemma fold_left_add_R (l : list R) (a : R) :
  fold_left Rplus l a = a + Rsum l.
Proof.
  revert a; induction l as [|x l IH]; intros a; simpl.
  - lra.
  - rewrite IH. lra.
Qed.

Lemma prod_R (l : list R) : prod l = Rprod l.
Proof.
  destruct l as [|x l]; simpl; [reflexivity|].
  apply fold_left_mul_R.
Qed.

Lemma sum_R (l : list R) : sum l = Rsum l.
Proof.
  destruct l as [|x l]; simpl; [reflexivity|].
  apply fold_left_add_R.
Qed.

Lemma Rprod_app (l1 l2 : list R) : Rprod (l1 ++ l2) = Rprod l1 * Rprod l2.
Proof.
  induction l1 as [|x l1 IH]; simpl; [lra|].
  fold (Rprod (l1 ++ l2)). fold (Rprod l1). rewrite IH. lra.
Qed.

Lemma Rsum_app (l1 l2 : list R) : Rsum (l1 ++ l2) = Rsum l1 + Rsum l2.
Proof.
  induction l1 as [|x l1 IH]; simpl; [lra|].
  fold (Rsum (l1 ++ l2)). fold (Rsum l1). rewrite IH. lra.
Qed.

Lemma Rprod_rev (l : list R) : Rprod (rev l) = Rprod l.
Proof.
  induction l as [|x l IH]; [reflexivity|].
  change (rev (x :: l)) with (rev l ++ [x]).
  rewrite Rprod_app, IH. simpl. fold (Rprod l). lra.
Qed.

Lemma cumprod_from_snoc (acc : R) (l : list R) (x : R) :
  cumprod_from acc (l ++ [x]) = cumprod_from acc l ++ [acc * Rprod l * x].
Proof.
  revert acc; induction l as [|y l IH]; intros acc; simpl.
  - f_equal. lra.
  - rewrite IH. fold (Rprod l). do 3 f_equal. lra.
Qed.

Lemma cumprod_snoc (l : list R) (x : R) :
  cumprod (l ++ [x]) = cumprod l ++ [Rprod l * x].
Proof.
  destruct l as [|y l]; simpl.
  - f_equal. lra.
  - rewrite cumprod_from_snoc. reflexivity.
Qed.

(** The reversed cumulative products are the suffix products. *)
Lemma sum_cumprod_rev (l : list R) :
  Rsum (cumprod (rev l)) = suffix_sum l.
Proof.
  induction l as [|x l IH]; [reflexivity|].
  change (rev (x :: l)) with (rev l ++ [x]).
  rewrite cumprod_snoc, Rsum_app, IH, Rprod_rev.
  simpl. fold (Rprod l). lra.
Qed.

(** The suffix products, indexed as in the design. *)
Lemma sum_drop_suffix (l : list R) :
  Rsum (map (fun k => Rprod (drop k l)) (seq 0 (length l))) = suffix_sum l.
Proof.
  induction l as [|x l IH]; [reflexivity|].
  cbn [length seq map]. rewrite <- seq_shift, map_map.
  cbn [drop suffix_sum]. rewrite <- IH.
  cbn [Rsum fold_right]. reflexivity.
Qed.

(** Solution of the recurrence from any starting value. *)
Lemma substeps_solution (c : R) (g : list R) (x : R) :
  substeps c g x =
  x * Rprod g + c * (suffix_sum g + 1 - Rprod g).
Proof.
  unfold substeps. revert x; induction g as [|a g IH]; intros x.
  - simpl. lra.
  - cbn [fold_left]. rewrite IH. cbn [add mul Arith_R suffix_sum].
    cbn [Rprod fold_right]. fold (Rprod g). lra.
Qed.
End RealReductions.

(** ** The macro step of one cell, over the reals *)

Section MacroStepReal.
Local Open Scope R_scope.

Lemma update_cell_R (c old : R) (g : list R) :
  update_cell c old g = old * Rprod g + c * suffix_sum (tail g) + c.
Proof.
  unfold update_cell. rewrite prod_R, sum_R, sum_cumprod_rev. reflexivity.
Qed.

Lemma closed_form_R (c old : R) (g : list R) :
  closed_form c old g = old * Rprod g + c * suffix_sum (tail g) + c.
Proof.
  unfold closed_form. rewrite prod_R, sum_R.
  replace (map (fun k => prod (drop k g)) (seq 1 (length g - 1)))
    with (map (fun k => Rprod (drop k (tail g))) (seq 0 (length (tail g)))).
  - rewrite sum_drop_suffix. reflexivity.
  - destruct g as [|g1 t]; [reflexivity|].
    cbn [tail length]. rewrite Nat.sub_succ, Nat.sub_0_r.
    rewrite <- seq_shift, map_map. apply map_ext; intros k.
    rewrite prod_R. reflexivity.
Qed.

(** C1: for every constant [c], old abundance and [tau >= 1] growth factors
    [g_1..g_tau] in chronological order (positive or not), the closed form
    [old * prod(g_1..g_tau) + c * sum_{k=1}^{tau-1} prod(g_{k+1}..g_tau) + c]
    equals the result of iterating [x <- g_k * x + c] for [k = 1..tau], and
    the expression the loop evaluates (the full product plus the sum of the
    cumulative products of the reversed [g_2..g_tau]) equals that closed
    form.  Exact arithmetic. *)
Theorem macro_step_closed_form (c old : R) (g : list R) :
  (1 <= length g)%nat ->
  closed_form c old g = substeps c g old /\
  update_cell c old g = closed_form c old g.
Proof.
  intros Hg. rewrite update_cell_R, closed_form_R, substeps_solution.
  split; [|reflexivity].
  destruct g as [|g1 t]; [simpl in Hg; lia|].
  cbn [tail suffix_sum]. lra.
Qed.

Lemma macro_step_closed_form_witness :
  (1 <= length [2; / 2; 1]%R)%nat /\
  closed_form 1 3 [2; / 2; 1]%R = substeps 1 [2; / 2; 1]%R 3 /\
  update_cell 1 3 [2; / 2; 1]%R = closed_form 1 3 [2; / 2; 1]%R.
Proof.
  split; [simpl; lia|].
  apply (macro_step_closed_form 1 3 [2; / 2; 1]%R). simpl; lia.
Defined.

(** C7: at [tau = 1] the slice [g[1:]] is empty, so is its cumulative
    product, the summation contributes [0], and the update of a cell is
    exactly [old * g_1 + c].  Exact arithmetic. *)
Theorem macro_step_tau_one (c old g1 : R) :
  cumprod (rev (tail [g1])) = [] /\
  sum (cumprod (rev (tail [g1]))) = 0 /\
  update_cell c old [g1] = old * g1 + c.
Proof.
  split; [reflexivity|]. split; [reflexivity|].
  unfold update_cell. simpl. lra.
Qed.
End MacroStepReal.

(** ** The binary model's factors *)

Section BinaryModel.
Local Open Scope R_scope.

Lemma binary_g0_pow (gamma alpha : R) :
  0 < alpha ->
  pow (binary_g0 gamma alpha) alpha = 2 / (1 + Rpower gamma alpha).
Proof.
  intros Ha. unfold binary_g0. cbn [pow np_exp Elementary_R add div of_int Arith_R].
  rewrite Rpower_mult.
  replace (1 / alpha * alpha) with 1 by (field; lra).
  apply Rpower_1.
  assert (0 < Rpower gamma alpha) by apply exp_pos.
  apply Rdiv_lt_0_compat; lra.
Qed.

(** C6: for every [gamma > 0] and [alpha > 0], the factors
    [g0 = (2/(1+gamma^alpha))^(1/alpha)] and [g1 = gamma * g0] of the binary
    cell satisfy [(1/2) * (g0^alpha + g1^alpha) = 1].  Exact arithmetic. *)
Theorem binary_moment_matching (gamma alpha : R) :
  0 < gamma -> 0 < alpha ->
  1 / 2 * (pow (binary_g0 gamma alpha) alpha
           + pow (binary_g1 gamma alpha) alpha) = 1.
Proof.
  intros Hg Ha.
  assert (Hq : pow (binary_g1 gamma alpha) alpha =
               Rpower gamma alpha * pow (binary_g0 gamma alpha) alpha).
  { unfold binary_g1. cbn [pow mul Elementary_R Arith_R].
    rewrite Rpower_mult_distr; [reflexivity|exact Hg|].
    unfold binary_g0. cbn [pow Elementary_R]. apply exp_pos. }
  rewrite Hq, binary_g0_pow by exact Ha.
  assert (0 < Rpower gamma alpha) by apply exp_pos.
  field. lra.
Qed.

Lemma binary_moment_matching_witness :
  0 < 3 /\ 0 < 7 / 10 /\
  1 / 2 * (pow (binary_g0 3 (7 / 10)) (7 / 10)
           + pow (binary_g1 3 (7 / 10)) (7 / 10)) = 1.
Proof.
  split; [lra|]. split; [lra|].
  apply (binary_moment_matching 3 (7 / 10)); lra.
Defined.
End BinaryModel.

(** ** Arrays of draws *)

Section Draws.
Context {St T : Type} (one : St -> T * St).

Lemma draws_succ (n : nat) (s : St) :
  draws one (S n) s =
  ((one s).1 :: (draws one n (one s).2).1, (draws one n (one s).2).2).
Proof.
  simpl. destruct (one s) as [x s1]. simpl.
  destruct (draws one n s1) as [xs s2]. reflexivity.
Qed.

Lemma after_draws_succ_r (k : nat) (s : St) :
  after_draws one (S k) s = after_draws one k (one s).2.
Proof. unfold after_draws. rewrite Nat.iter_succ_r. reflexivity. Qed.

Lemma after_draws_add (a b : nat) (s : St) :
  after_draws one (a + b) s = after_draws one b (after_draws one a s).
Proof.
  revert s; induction a as [|a IH]; intros s; [reflexivity|].
  rewrite Nat.add_succ_l, !after_draws_succ_r. apply IH.
Qed.

Lemma nth_draw_add (a k : nat) (s : St) :
  nth_draw one (a + k) s = nth_draw one k (after_draws one a s).
Proof. unfold nth_draw. rewrite after_draws_add. reflexivity. Qed.

Lemma draws_state (n : nat) (s : St) :
  (draws one n s).2 = after_draws one n s.
Proof.
  revert s; induction n as [|n IH]; intros s; [reflexivity|].
  rewrite draws_succ, after_draws_succ_r. simpl. apply IH.
Qed.

Lemma draws_values (n : nat) (s : St) :
  (draws one n s).1 = map (fun k => nth_draw one k s) (seq 0 n).
Proof.
  revert s; induction n as [|n IH]; intros s; [reflexivity|].
  rewrite draws_succ. cbn [fst seq map]. f_equal.
  rewrite <- seq_shift, map_map, IH. apply map_ext; intros k.
  unfold nth_draw. rewrite after_draws_succ_r. reflexivity.
Qed.

Lemma draws_length (n : nat) (s : St) : length (draws one n s).1 = n.
Proof. rewrite draws_values, length_map, length_seq. reflexivity. Qed.

Lemma draws_lookup (n k : nat) (s : St) :
  (k < n)%nat -> (draws one n s).1 !! k = Some (nth_draw one k s).
Proof.
  intros Hk. rewrite draws_values, list_lookup_fmap.
  rewrite lookup_seq_lt by exact Hk. reflexivity.
Qed.

Lemma draws_Forall (P : T -> Prop) (n : nat) (s : St) :
  (forall s', P (one s').1) -> Forall P (draws one n s).1.
Proof.
  intros HP. rewrite draws_values. apply List.Forall_forall.
  intros x Hx. apply in_map_iff in Hx as (k & <- & _). apply HP.
Qed.

End Draws.

Section NestedDraws.
Context {St T : Type} (one : St -> T * St).

(** [m] draws, [k] times over, are [k * m] draws. *)
Lemma after_draws_nested (m k : nat) (s : St) :
  after_draws (draws one m) k s = after_draws one (k * m) s.
Proof.
  revert s; induction k as [|k IH]; intros s; [reflexivity|].
  rewrite after_draws_succ_r, draws_state, IH.
  rewrite Nat.mul_succ_l, (Nat.add_comm (k * m) m), after_draws_add.
  reflexivity.
Qed.

Lemma nth_draw_nested (m k : nat) (s : St) :
  nth_draw (draws one m) k s =
  map (fun j => nth_draw one (k * m + j) s) (seq 0 m).
Proof.
  unfold nth_draw at 1. rewrite after_draws_nested, draws_values.
  apply map_ext; intros j. rewrite nth_draw_add. reflexivity.
Qed.
End NestedDraws.

(** ** Two-dimensional arrays *)

Section Shapes.
Context {T U V : Type}.

Lemma at2_Some (a : list (list T)) (i j : nat) (x : T) :
  at2 a i j = Some x <-> exists row, a !! i = Some row /\ row !! j = Some x.
Proof.
  unfold at2. destruct (a !! i) as [row|]; simpl.
  - split; [intros Hx; exists row; auto|intros (r & [= <-] & Hx); exact Hx].
  - split; [discriminate|intros (r & [=] & _)].
Qed.

Lemma shape2_row (rows cols : nat) (a : list (list T)) (i : nat) (row : list T) :
  shape2 rows cols a -> a !! i = Some row -> length row = cols.
Proof.
  intros [_ Ha] Hi. exact (proj1 (Forall_lookup _ _) Ha i row Hi).
Qed.

Lemma shape2_at2 (rows cols : nat) (a : list (list T)) (i j : nat) :
  shape2 rows cols a -> (i < rows)%nat -> (j < cols)%nat ->
  exists x, at2 a i j = Some x.
Proof.
  intros Ha Hi Hj. destruct Ha as [Hl Hr].
  destruct (lookup_lt_is_Some_2 a i) as [row Hrow]; [lia|].
  pose proof (proj1 (Forall_lookup _ _) Hr i row Hrow) as Hlen.
  destruct (lookup_lt_is_Some_2 row j) as [x Hx]; [simpl in Hlen; lia|].
  exists x. apply at2_Some. eauto.
Qed.

Lemma at2_shape2 (rows cols : nat) (a : list (list T)) (i j : nat) (x : T) :
  shape2 rows cols a -> at2 a i j = Some x -> (i < rows)%nat /\ (j < cols)%nat.
Proof.
  intros Ha Hx. apply at2_Some in Hx as (row & Hrow & Hx).
  pose proof (shape2_row _ _ _ _ _ Ha Hrow) as Hlen.
  destruct Ha as [Hl _]. apply lookup_lt_Some in Hrow, Hx. lia.
Qed.

Lemma shape2_map (f : T -> U) (rows cols : nat) (a : list (list T)) :
  shape2 rows cols a -> shape2 rows cols (map (map f) a).
Proof.
  intros [Hl Hr]. split; [rewrite length_map; exact Hl|].
  apply Forall_fmap. eapply Forall_impl; [exact Hr|].
  intros r Hlen. simpl. rewrite length_map. exact Hlen.
Qed.

Lemma shape2_zip_with (f : T -> U -> V) (rows cols : nat)
    (a : list (list T)) (b : list (list U)) :
  shape2 rows cols a -> shape2 rows cols b ->
  shape2 rows cols (zip_with (zip_with f) a b).
Proof.
  intros [Hla Hra] [Hlb Hrb]. split.
  - rewrite length_zip_with. lia.
  - apply Forall_lookup. intros i r Hr.
    apply lookup_zip_with_Some in Hr as (ra & rb & -> & Ha & Hb).
    pose proof (proj1 (Forall_lookup _ _) Hra i ra Ha) as H1.
    pose proof (proj1 (Forall_lookup _ _) Hrb i rb Hb) as H2.
    simpl in H1, H2. rewrite length_zip_with. lia.
Qed.

Lemma at2_zip_with (f : T -> U -> V) (a : list (list T)) (b : list (list U))
    (i j : nat) :
  at2 (zip_with (zip_with f) a b) i j =
  (x ← at2 a i j; y ← at2 b i j; Some (f x y)).
Proof.
  unfold at2. rewrite lookup_zip_with.
  destruct (a !! i) as [ra|]; simpl; [|reflexivity].
  destruct (b !! i) as [rb|]; simpl.
  - rewrite lookup_zip_with. reflexivity.
  - destruct (ra !! j); reflexivity.
Qed.

Lemma at2_map (f : T -> U) (a : list (list T)) (i j : nat) :
  at2 (map (map f) a) i j = f <$> at2 a i j.
Proof.
  unfold at2. rewrite list_lookup_fmap.
  destruct (a !! i) as [ra|]; simpl; [|reflexivity].
  apply list_lookup_fmap.
Qed.
End Shapes.

Section DrawnArrays.
Context {St T : Type} (one : St -> T * St).

Lemma draws2_shape (rows cols : nat) (s : St) :
  shape2 rows cols (draws (draws one cols) rows s).1.
Proof.
  split; [apply draws_length|].
  apply draws_Forall. intros s'. apply draws_length.
Qed.

(** Entry [(i, j)] of an array of shape [(rows, cols)] is draw number
    [i * cols + j]. *)
Lemma draws2_at2 (rows cols i j : nat) (s : St) :
  (i < rows)%nat -> (j < cols)%nat ->
  at2 (draws (draws one cols) rows s).1 i j =
  Some (nth_draw one (i * cols + j) s).
Proof.
  intros Hi Hj. unfold at2. rewrite draws_lookup by exact Hi. simpl.
  rewrite nth_draw_nested, list_lookup_fmap, lookup_seq_lt by exact Hj.
  reflexivity.
Qed.

Lemma draws2_state (rows cols : nat) (s : St) :
  (draws (draws one cols) rows s).2 = after_draws one (rows * cols) s.
Proof. rewrite draws_state. apply after_draws_nested. Qed.

Lemma draws2_Forall (P : T -> Prop) (rows cols : nat) (s : St) :
  (forall s', P (one s').1) ->
  Forall (Forall P) (draws (draws one cols) rows s).1.
Proof. intros HP. apply draws_Forall. intros s'. apply draws_Forall, HP. Qed.
End DrawnArrays.

(** ** The time-evolution loop of the non-spatial cells *)

Section Loop.
Context {A Gen Glob : Type} `{Arith A} `{Sampler A Gen Glob}.
Implicit Types (sample : factor_sampler A Gen Glob) (st : state A Gen Glob).

Lemma evolve_succ sample c k st :
  evolve sample c (S k) st = macro_step sample c (evolve sample c k st) (S k).
Proof. unfold evolve. rewrite seq_S, fold_left_app. reflexivity. Qed.

Lemma macro_step_eq sample c st t :
  macro_step sample c st t =
  let current' :=
    zip_with (zip_with (update_cell c)) (current st) (sample (st_world st)).1 in
  State (sample (st_world st)).2 current'
        (set_column t (map sum current') (N st)).
Proof. unfold macro_step. destruct (sample (st_world st)). reflexivity. Qed.

Lemma set_column_shape (t S dp : nat) (v : list A) (a : list (list A)) :
  length v = S -> shape2 S dp a -> shape2 S dp (set_column t v a).
Proof.
  intros Hv [Hl Hr]. unfold set_column. split.
  - rewrite length_zip_with. lia.
  - apply Forall_lookup. intros i r Hi.
    apply lookup_zip_with_Some in Hi as (row & x & -> & Hrow & _).
    rewrite length_insert.
    exact (proj1 (Forall_lookup _ _) Hr i row Hrow).
Qed.

(** Column [t] receives [v]; the other columns keep their entries. *)
Lemma set_column_at2 (t S dp : nat) (v : list A) (a : list (list A))
    (s t' : nat) :
  length v = S -> shape2 S dp a -> (s < S)%nat -> (t < dp)%nat ->
  at2 (set_column t v a) s t' =
  if decide (t' = t) then v !! s else at2 a s t'.
Proof.
  intros Hv Ha Hs Ht. unfold at2, set_column. rewrite lookup_zip_with.
  destruct Ha as [Hl Hr].
  destruct (lookup_lt_is_Some_2 a s) as [row Hrow]; [lia|].
  destruct (lookup_lt_is_Some_2 v s) as [x Hx]; [lia|].
  pose proof (proj1 (Forall_lookup _ _) Hr s row Hrow) as Hlen.
  simpl in Hlen. rewrite Hrow, Hx. simpl.
  destruct (decide (t' = t)) as [->|Hne].
  - apply list_lookup_insert_eq. lia.
  - apply list_lookup_insert_ne. congruence.
Qed.

Lemma macro_step_shaped sample c S M dp st t :
  shaped S M sample -> well_shaped S M dp st ->
  well_shaped S M dp (macro_step sample c st t).
Proof.
  intros Hs [Hc HN]. rewrite macro_step_eq. cbn zeta.
  assert (Hc' : shape2 S M (zip_with (zip_with (update_cell c)) (current st)
                                     (sample (st_world st)).1))
    by (apply shape2_zip_with; [exact Hc|apply Hs]).
  split; simpl; [exact Hc'|].
  apply set_column_shape; [|exact HN].
  rewrite length_map. apply Hc'.
Qed.

Lemma initial_state_eq dp M S seed glob :
  initial_state dp M S seed glob =
  let init := (initial_abundance S M seed).1 in
  State (World (initial_abundance S M seed).2 glob)
        (map (map of_int) init)
        (set_column 0 (map (fun row => of_int (foldr Z.add 0%Z row)) init)
                    (zeros S dp)).
Proof.
  unfold initial_state. destruct (initial_abundance S M seed). reflexivity.
Qed.

Lemma zeros_shape (rows cols : nat) : shape2 rows cols (zeros rows cols).
Proof.
  unfold zeros. split; [apply length_replicate|].
  apply Forall_replicate. apply length_replicate.
Qed.

Lemma initial_state_shaped dp M S seed glob :
  well_shaped S M dp (initial_state dp M S seed glob).
Proof.
  rewrite initial_state_eq. cbn zeta. split; simpl.
  - apply shape2_map. apply draws2_shape.
  - apply set_column_shape; [|apply zeros_shape].
    rewrite length_map. apply draws_length.
Qed.

Lemma evolve_shaped sample c S M dp k st :
  shaped S M sample -> well_shaped S M dp st ->
  well_shaped S M dp (evolve sample c k st).
Proof.
  intros Hs Hst. induction k as [|k IH]; [exact Hst|].
  rewrite evolve_succ. apply macro_step_shaped; assumption.
Qed.

(** One macro step applies [update_cell] to every cell, with the cell's own
    factors. *)
Lemma macro_step_current sample c st t s m :
  at2 (current (macro_step sample c st t)) s m =
  (x ← at2 (current st) s m;
   g ← at2 (sample (st_world st)).1 s m;
   Some (update_cell c x g)).
Proof. rewrite macro_step_eq. cbn zeta. simpl. apply at2_zip_with. Qed.

(** Step [t] writes column [t] of [N], the sums over the sites, and no
    other column. *)
Lemma macro_step_N sample c S M dp st t s t' :
  shaped S M sample -> well_shaped S M dp st -> (s < S)%nat -> (t < dp)%nat ->
  at2 (N (macro_step sample c st t)) s t' =
  if decide (t' = t)
  then sum <$> current (macro_step sample c st t) !! s
  else at2 (N st) s t'.
Proof.
  intros Hs Hst Hlt Ht.
  pose proof (macro_step_shaped sample c S M dp st t Hs Hst) as [Hc' _].
  revert Hc'. rewrite macro_step_eq. cbn zeta. simpl. intros Hc'.
  rewrite (set_column_at2 t S dp); try assumption.
  - rewrite list_lookup_fmap. reflexivity.
  - rewrite length_map. apply Hc'.
  - apply Hst.
Qed.

(** The batches of the three-value and binary cells. *)
Lemma choice_factors_eq values p S M tau w :
  choice_factors values p S M tau w =
  ((draws (draws (draws (rng_choice values p) tau) M) S (rng w)).1,
   World (after_draws (rng_choice values p) (S * M * tau) (rng w))
         (np_random w)).
Proof.
  unfold choice_factors.
  pose proof (draws2_state (draws (rng_choice values p) tau) S M (rng w)) as Hs.
  rewrite after_draws_nested in Hs.
  destruct (draws (draws (draws (rng_choice values p) tau) M) S (rng w)).
  simpl in *. rewrite Hs. reflexivity.
Qed.

Lemma choice_factors_shaped values p S M tau :
  shaped S M (choice_factors values p S M tau).
Proof. intros w. rewrite choice_factors_eq. apply draws2_shape. Qed.

Lemma choice_factors_at2 values p S M tau w s m :
  (s < S)%nat -> (m < M)%nat ->
  at2 (choice_factors values p S M tau w).1 s m =
  Some (cell_factors (rng_choice values p) M tau s m (rng w)).
Proof.
  intros Hs Hm. rewrite choice_factors_eq. simpl.
  rewrite draws2_at2 by assumption. rewrite nth_draw_nested. reflexivity.
Qed.
End Loop.

Section Series.
Context {A Gen Glob : Type} `{Arith A} `{Sampler A Gen Glob}.
Implicit Types (sample : factor_sampler A Gen Glob) (st : state A Gen Glob).

(** While the loop runs, column [t] of [N] holds the sums over the sites of
    the state after [t] steps, for every step made so far; column [0] is
    as the loop found it. *)
Lemma evolve_N sample c Sp M dp st k s t :
  shaped Sp M sample -> well_shaped Sp M dp st ->
  (s < Sp)%nat -> (t <= k)%nat -> (k < dp)%nat ->
  at2 (N (evolve sample c k st)) s t =
  match t with
  | O => at2 (N st) s 0
  | _ => sum <$> current (evolve sample c t st) !! s
  end.
Proof.
  intros Hs Hst Hlt. induction k as [|k IH]; intros Htk Hk.
  - replace t with 0%nat by lia. reflexivity.
  - rewrite evolve_succ.
    rewrite (macro_step_N sample c Sp M dp); try assumption.
    + destruct (decide (t = S k)) as [->|Hne].
      * rewrite <- evolve_succ. reflexivity.
      * apply IH; lia.
    + apply evolve_shaped; assumption.
Qed.

Lemma evolve_choice_rng values p Sp M tau c k st :
  rng (st_world (evolve (choice_factors values p Sp M tau) c k st)) =
  after_draws (rng_choice values p) (k * (Sp * M * tau)) (rng (st_world st)).
Proof.
  induction k as [|k IH]; [reflexivity|].
  rewrite evolve_succ, macro_step_eq. cbn zeta. simpl.
  rewrite choice_factors_eq. simpl. rewrite IH.
  rewrite <- after_draws_add. f_equal. lia.
Qed.

Lemma evolve_choice_np_random values p Sp M tau c k st :
  np_random (st_world (evolve (choice_factors values p Sp M tau) c k st)) =
  np_random (st_world st).
Proof.
  induction k as [|k IH]; [reflexivity|].
  rewrite evolve_succ, macro_step_eq. cbn zeta. simpl.
  rewrite choice_factors_eq. simpl. exact IH.
Qed.

Lemma accumulate_returns sample dp M S c seed glob :
  (0 < dp)%nat ->
  accumulate sample dp M S c seed glob =
  let st := evolve sample c (dp - 1) (initial_state dp M S seed glob) in
  Returned (Result (N st) (growth_rates (N st)) (current st) (st_world st)).
Proof. intros Hdp. destruct dp; [lia|reflexivity]. Qed.

(** C8 (amended): a run of the three-value or binary cell with [dp >= 1]
    returns; its series has [dp] entries per species; the loop makes
    [dp - 1] macro steps, not [dp]: the generator is left after
    [(dp - 1) * (S * M * tau)] draws of factors, and step [t], for
    [1 <= t <= dp - 1], advances every cell [(s, m)] by the macro-step
    update with the cell's own [tau] consecutive draws of the step's
    batch. *)
Theorem choice_run_macro_steps (dp : nat) (values p : list A) (M tau S : nat)
    (c : A) (seed : Z) (glob : Glob) :
  (0 < dp)%nat ->
  let one := rng_choice values p in
  let sample := choice_factors values p S M tau in
  let st0 := initial_state dp M S seed glob in
  exists r,
    choice_run dp values p M tau S c seed glob = Returned r /\
    shape2 S dp (res_N r) /\
    res_current r = current (evolve sample c (dp - 1) st0) /\
    rng (res_world r) =
      after_draws one ((dp - 1) * (S * M * tau)) (rng (st_world st0)) /\
    forall t s m,
      (1 <= t < dp)%nat -> (s < S)%nat -> (m < M)%nat ->
      at2 (current (evolve sample c t st0)) s m =
      (x ← at2 (current (evolve sample c (t - 1) st0)) s m;
       Some (update_cell c x
               (cell_factors one M tau s m
                  (after_draws one ((t - 1) * (S * M * tau))
                               (rng (st_world st0)))))).
Proof.
  intros Hdp one sample st0. subst one sample. unfold choice_run.
  rewrite accumulate_returns by exact Hdp. cbn zeta.
  eexists. split; [reflexivity|]. simpl.
  split; [|split; [reflexivity|split]].
  - apply (evolve_shaped _ c S M dp).
    + apply choice_factors_shaped.
    + apply initial_state_shaped.
  - apply evolve_choice_rng.
  - intros t s m Ht Hs Hm.
    replace t with (Datatypes.S (t - 1)) at 1 by lia.
    rewrite evolve_succ, macro_step_current.
    rewrite choice_factors_at2 by assumption.
    rewrite evolve_choice_rng.
    destruct (at2 (current (evolve _ c (t - 1) st0)) s m); reflexivity.
Qed.
End Series.

(** ** The growth rates *)

Section GrowthRates.
Context {A : Type} `{Arith A}.

(** [G[s, t] = N[s, t + 1] / N[s, t]] wherever both entries exist. *)
Lemma growth_rates_at2 (N : list (list A)) (s t : nat) :
  at2 (growth_rates N) s t =
  (y ← at2 N s (t + 1); x ← at2 N s t; Some (div y x)).
Proof.
  unfold at2, growth_rates. rewrite list_lookup_fmap.
  destruct (N !! s) as [row|]; simpl; [|reflexivity].
  rewrite lookup_zip_with, lookup_tail, Nat.add_1_r.
  destruct (row !! Datatypes.S t) as [y|] eqn:Hy; simpl; [|reflexivity].
  apply lookup_lt_Some in Hy.
  rewrite lookup_take_lt by lia. reflexivity.
Qed.

Lemma growth_rates_shape (rows dp : nat) (N : list (list A)) :
  shape2 rows dp N -> shape2 rows (dp - 1) (growth_rates N).
Proof.
  intros [Hl Hr]. unfold growth_rates. split.
  - rewrite length_map. exact Hl.
  - apply Forall_fmap. eapply Forall_impl; [exact Hr|].
    intros row Hrow. simpl in *.
    rewrite length_zip_with, length_take.
    destruct row; simpl in *; lia.
Qed.
End GrowthRates.

(** ** Positivity, over the reals *)

Section Positivity.
Local Open Scope R_scope.
Context {Gen Glob : Type} `{Sampler R Gen Glob}.
Implicit Types (sample : factor_sampler R Gen Glob) (st : state R Gen Glob).

Lemma Rprod_pos (g : list R) : Forall (Rlt 0) g -> 0 < Rprod g.
Proof.
  induction 1 as [|x g Hx _ IH]; simpl; [lra|].
  fold (Rprod g). apply Rmult_lt_0_compat; assumption.
Qed.

Lemma suffix_sum_nonneg (g : list R) : Forall (Rlt 0) g -> 0 <= suffix_sum g.
Proof.
  induction 1 as [|x g Hx Hg IH]; simpl; [lra|].
  fold (Rprod g).
  assert (0 < x * Rprod g)
    by (apply Rmult_lt_0_compat; [exact Hx|apply Rprod_pos, Hg]).
  lra.
Qed.

Lemma Rsum_pos (l : list R) : l <> [] -> Forall (Rlt 0) l -> 0 < Rsum l.
Proof.
  intros Hne Hl. destruct Hl as [|x l Hx Hl]; [congruence|].
  simpl. fold (Rsum l).
  assert (0 <= Rsum l).
  { clear Hne Hx. induction Hl as [|y l Hy _ IH]; simpl; [lra|].
    fold (Rsum l). lra. }
  lra.
Qed.

(** The update of a cell keeps it positive. *)
Lemma update_cell_pos (c x : R) (g : list R) :
  0 < c -> 0 < x -> Forall (Rlt 0) g -> 0 < update_cell c x g.
Proof.
  intros Hc Hx Hg. rewrite update_cell_R.
  assert (0 < x * Rprod g)
    by (apply Rmult_lt_0_compat; [exact Hx|apply Rprod_pos, Hg]).
  assert (0 <= suffix_sum (tail g)).
  { apply suffix_sum_nonneg. destruct Hg; [constructor|assumption]. }
  assert (0 <= c * suffix_sum (tail g)) by (apply Rmult_le_pos; lra).
  lra.
Qed.

Lemma macro_step_positive sample c st t :
  0 < c -> positive_factors sample ->
  positive2 (current st) -> positive2 (current (macro_step sample c st t)).
Proof.
  intros Hc Hg Hcur s m y. rewrite macro_step_current.
  destruct (at2 (current st) s m) as [x|] eqn:Hx; [|discriminate].
  destruct (at2 (sample (st_world st)).1 s m) as [g|] eqn:Hgs; [|discriminate].
  simpl. intros [= <-].
  apply update_cell_pos; [exact Hc|eapply Hcur, Hx|eapply Hg, Hgs].
Qed.

Lemma evolve_positive sample c k st :
  0 < c -> positive_factors sample ->
  positive2 (current st) -> positive2 (current (evolve sample c k st)).
Proof.
  intros Hc Hg Hcur. induction k as [|k IH]; [exact Hcur|].
  rewrite evolve_succ. apply macro_step_positive; assumption.
Qed.

Lemma positive2_row (a : list (list R)) (s : nat) (row : list R) :
  positive2 a -> a !! s = Some row -> Forall (Rlt 0) row.
Proof.
  intros Ha Hs. apply Forall_lookup. intros m x Hx.
  apply (Ha s m). apply at2_Some. eauto.
Qed.

(** The sum over the sites of a positive row with at least one site. *)
Lemma site_sum_positive (rows M : nat) (a : list (list R)) (s : nat) (x : R) :
  (0 < M)%nat -> shape2 rows M a -> positive2 a ->
  sum <$> a !! s = Some x -> 0 < x.
Proof.
  intros HM Hsh Ha Hx.
  destruct (a !! s) as [row|] eqn:Hrow; [|discriminate].
  simpl in Hx. injection Hx as <-. rewrite sum_R.
  apply Rsum_pos; [|eapply positive2_row; eassumption].
  pose proof (shape2_row _ _ _ _ _ Hsh Hrow) as Hlen.
  destruct row; [simpl in Hlen; lia|discriminate].
Qed.

Lemma Zsum_positive (row : list Z) :
  row <> [] -> Forall (Z.lt 0) row -> (0 < foldr Z.add 0 row)%Z.
Proof.
  intros Hne Hrow. destruct Hrow as [|z row Hz Hrow]; [congruence|].
  simpl. assert (0 <= foldr Z.add 0 row)%Z; [|lia].
  clear Hne Hz. induction Hrow as [|y l Hy _ IH]; simpl; lia.
Qed.
End Positivity.

Section PositiveRun.
Local Open Scope R_scope.
Context {Gen Glob : Type} `{Sampler R Gen Glob}.
Implicit Types (sample : factor_sampler R Gen Glob).

Lemma initial_state_positive dp M Sp seed glob :
  (forall s m z, at2 (initial_abundance Sp M seed).1 s m = Some z -> (0 < z)%Z) ->
  positive2 (current (initial_state dp M Sp seed glob)).
Proof.
  intros Hinit s m x. rewrite initial_state_eq. cbn zeta. simpl.
  rewrite at2_map.
  destruct (at2 (initial_abundance Sp M seed).1 s m) as [z|] eqn:Hz;
    [|discriminate].
  simpl. intros [= <-]. apply IZR_lt. eapply Hinit, Hz.
Qed.

Lemma initial_state_N_positive dp M Sp seed glob s x :
  (0 < M)%nat -> (0 < dp)%nat ->
  (forall s m z, at2 (initial_abundance Sp M seed).1 s m = Some z -> (0 < z)%Z) ->
  at2 (N (initial_state dp M Sp seed glob)) s 0 = Some x -> 0 < x.
Proof.
  intros HM Hdp Hinit Hx.
  pose proof (initial_state_shaped (A:=R) dp M Sp seed glob) as [_ HN].
  destruct (at2_shape2 _ _ _ _ _ _ HN Hx) as [Hs _].
  revert Hx. rewrite initial_state_eq. cbn zeta. simpl.
  rewrite (set_column_at2 0 Sp dp); try assumption.
  - simpl. rewrite list_lookup_fmap.
    destruct ((initial_abundance Sp M seed).1 !! s) as [row|] eqn:Hrow;
      [|discriminate].
    simpl. intros [= <-]. apply IZR_lt. apply Zsum_positive.
    + pose proof (shape2_row _ _ _ _ _
                    (draws2_shape (rng_integers 1 10) Sp M (default_rng seed))
                    Hrow) as Hlen.
      destruct row; [simpl in Hlen; lia|discriminate].
    + apply Forall_lookup. intros m z Hz. apply (Hinit s m).
      apply at2_Some. eauto.
  - rewrite length_map. apply draws_length.
  - apply zeros_shape.
Qed.

(** C9: with [c > 0], strictly positive growth factors and strictly positive
    initial abundances (and at least one site and one column), the run
    returns; after every macro step [k < dp] every cell's abundance is
    strictly positive; every entry of the series [N] (every sum over the
    sites, for every species and step) is strictly positive; hence every
    growth rate is the quotient of two entries of [N] with a strictly
    positive denominator.  Exact arithmetic. *)
Theorem abundances_stay_positive sample (dp M S : nat) (c : R) (seed : Z)
    (glob : Glob) :
  0 < c -> (0 < M)%nat -> (0 < dp)%nat ->
  shaped S M sample -> positive_factors sample ->
  (forall s m z, at2 (initial_abundance S M seed).1 s m = Some z -> (0 < z)%Z) ->
  exists r,
    accumulate sample dp M S c seed glob = Returned r /\
    (forall k, (k < dp)%nat ->
       positive2 (current (evolve sample c k (initial_state dp M S seed glob)))) /\
    positive2 (res_N r) /\
    shape2 S dp (res_N r) /\
    (forall s t q, at2 (res_G r) s t = Some q ->
       exists x y, at2 (res_N r) s t = Some x /\
                   at2 (res_N r) s (t + 1) = Some y /\
                   0 < x /\ q = y / x).
Proof.
  intros Hc HM Hdp Hsh Hg Hinit.
  rewrite accumulate_returns by exact Hdp. cbn zeta.
  set (st0 := initial_state dp M S seed glob).
  pose proof (initial_state_shaped (A:=R) dp M S seed glob) as Hst0.
  fold st0 in Hst0.
  assert (Hcur : forall k, positive2 (current (evolve sample c k st0))).
  { intros k. apply evolve_positive; try assumption.
    apply initial_state_positive, Hinit. }
  assert (HN : positive2 (N (evolve sample c (dp - 1) st0))).
  { intros s t x Hx.
    pose proof (evolve_shaped sample c S M dp (dp - 1) st0 Hsh Hst0) as [_ HNs].
    destruct (at2_shape2 _ _ _ _ _ _ HNs Hx) as [Hs Ht].
    rewrite (evolve_N sample c S M dp) in Hx by (assumption || lia).
    destruct t as [|t].
    - exact (initial_state_N_positive dp M S seed glob s x HM Hdp Hinit Hx).
    - eapply (site_sum_positive S M); [exact HM| |apply Hcur|exact Hx].
      apply (evolve_shaped sample c S M dp); assumption. }
  eexists. split; [reflexivity|]. simpl.
  split; [intros k _; apply Hcur|]. split; [exact HN|].
  split; [apply (evolve_shaped sample c S M dp); assumption|].
  intros s t q. rewrite growth_rates_at2.
  destruct (at2 _ s (t + 1)) as [y|] eqn:Hy; [|discriminate].
  destruct (at2 _ s t) as [x|] eqn:Hx; [|discriminate].
  simpl. intros [= <-]. exists x, y.
  split; [reflexivity|]. split; [reflexivity|].
  split; [eapply HN, Hx|reflexivity].
Qed.
End PositiveRun.

(** ** Loops that may raise *)

Section ForEach.
Context {St T : Type}.

Lemma for_each_app (body : St -> T -> outcome St) (l1 l2 : list T) (st : St) :
  for_each body (l1 ++ l2) st =
  (st' ← for_each body l1 st; for_each body l2 st').
Proof.
  revert st; induction l1 as [|x l1 IH]; intros st; [reflexivity|].
  simpl. destruct (body st x) as [st1|e]; simpl; [apply IH|reflexivity].
Qed.

Lemma for_each_map {U : Type} (body : St -> T -> outcome St) (f : U -> T)
    (l : list U) (st : St) :
  for_each (fun st u => body st (f u)) l st = for_each body (map f l) st.
Proof.
  revert st; induction l as [|u l IH]; intros st; [reflexivity|].
  simpl. destruct (body st (f u)) as [st1|e]; simpl; [apply IH|reflexivity].
Qed.

End ForEach.

(** Two nested loops are one loop over the pairs, in the same order. *)
Lemma for_each_pairs {St U V : Type} (body : St -> U * V -> outcome St)
    (l1 : list U) (l2 : list V) (st : St) :
  for_each (fun st u => for_each (fun st v => body st (u, v)) l2 st) l1 st =
  for_each body (flat_map (fun u => map (fun v => (u, v)) l2) l1) st.
Proof.
  revert st; induction l1 as [|u l1 IH]; intros st; [reflexivity|].
  simpl. rewrite for_each_app.
  rewrite <- (for_each_map body (fun v => (u, v)) l2 st).
  destruct (for_each _ l2 st) as [st1|e]; simpl; [apply IH|reflexivity].
Qed.

(** ** Reading and writing the lattice *)

Section Store.
Context {A : Type} `{Arith A}.

Lemma read2_at2 (a : list (list A)) (i t : nat) (x : A) :
  at2 a i t = Some x -> read2 a i t = Returned x.
Proof. unfold read2, at2. intros ->. reflexivity. Qed.

Lemma read1_lookup (g : list A) (i : nat) (x : A) :
  g !! i = Some x -> read1 g i = Returned x.
Proof. unfold read1. intros ->. reflexivity. Qed.

Lemma write2_set2 (rows cols : nat) (a : list (list A)) (i t : nat) (v : A) :
  shape2 rows cols a -> (i < rows)%nat -> (t < cols)%nat ->
  write2 a i t v = Returned (set2 a i t v).
Proof.
  intros Ha Hi Ht. unfold write2, set2.
  destruct Ha as [Hl Hr].
  destruct (lookup_lt_is_Some_2 a i) as [row Hrow]; [lia|].
  pose proof (proj1 (Forall_lookup _ _) Hr i row Hrow) as Hlen.
  simpl in Hlen. rewrite Hrow.
  destruct (decide (t < length row)%nat); [reflexivity|lia].
Qed.

Lemma set2_shape (rows cols : nat) (a : list (list A)) (i t : nat) (v : A) :
  shape2 rows cols a -> shape2 rows cols (set2 a i t v).
Proof.
  intros Ha. unfold set2. destruct (a !! i) as [row|] eqn:Hrow; [|exact Ha].
  pose proof (shape2_row _ _ _ _ _ Ha Hrow) as Hlen.
  destruct Ha as [Hl Hr]. split.
  - rewrite length_insert. exact Hl.
  - apply Forall_insert; [exact Hr|].
    rewrite length_insert. exact Hlen.
Qed.

Lemma at2_set2_eq (rows cols : nat) (a : list (list A)) (i t : nat) (v : A) :
  shape2 rows cols a -> (i < rows)%nat -> (t < cols)%nat ->
  at2 (set2 a i t v) i t = Some v.
Proof.
  intros Ha Hi Ht. unfold set2, at2.
  destruct Ha as [Hl Hr].
  destruct (lookup_lt_is_Some_2 a i) as [row Hrow]; [lia|].
  pose proof (proj1 (Forall_lookup _ _) Hr i row Hrow) as Hlen.
  simpl in Hlen. rewrite Hrow.
  rewrite list_lookup_insert_eq by lia. simpl.
  apply list_lookup_insert_eq. lia.
Qed.

Lemma at2_set2_ne (a : list (list A)) (i t i' t' : nat) (v : A) :
  i' <> i \/ t' <> t -> at2 (set2 a i t v) i' t' = at2 a i' t'.
Proof.
  intros Hne. unfold set2, at2.
  destruct (a !! i) as [row|] eqn:Hrow; [|reflexivity].
  destruct (decide (i' = i)) as [->|Hi].
  - rewrite list_lookup_insert_eq by (eapply lookup_lt_Some; exact Hrow).
    rewrite Hrow. simpl. apply list_lookup_insert_ne.
    destruct Hne; congruence.
  - rewrite list_lookup_insert_ne by congruence. reflexivity.
Qed.

(** Arrays of one shape with the same entries are equal. *)
Lemma shape2_ext (rows cols : nat) (a b : list (list A)) :
  shape2 rows cols a -> shape2 rows cols b ->
  (forall i j, at2 a i j = at2 b i j) -> a = b.
Proof.
  intros Ha Hb Hab. apply list_eq. intros i.
  destruct (a !! i) as [ra|] eqn:Hra.
  - pose proof (lookup_lt_Some _ _ _ Hra) as Hi.
    destruct (lookup_lt_is_Some_2 b i) as [rb Hrb];
      [destruct Ha, Hb; lia|].
    rewrite Hrb. f_equal. apply list_eq. intros j.
    specialize (Hab i j). unfold at2 in Hab. rewrite Hra, Hrb in Hab.
    exact Hab.
  - apply lookup_ge_None_1 in Hra. symmetry. apply lookup_ge_None_2.
    destruct Ha, Hb; lia.
Qed.
End Store.

(** ** The torus *)

Section Torus.
Lemma wrap_before (L i : nat) :
  (i < L)%nat -> ((Z.of_nat i - 1) mod Z.of_nat L)%Z = Z.of_nat (before L i).
Proof.
  intros Hi. unfold before. destruct (Nat.eqb_spec i 0) as [->|Hne].
  - symmetry. apply (Z.mod_unique_pos _ _ (-1)); lia.
  - rewrite Z.mod_small by lia. lia.
Qed.

Lemma wrap_after (L i : nat) :
  (i < L)%nat -> ((Z.of_nat i + 1) mod Z.of_nat L)%Z = Z.of_nat (after L i).
Proof.
  intros Hi. unfold after. destruct (Nat.eqb_spec (i + 1) L) as [<-|Hne].
  - symmetry. apply (Z.mod_unique_pos _ _ 1); lia.
  - rewrite Z.mod_small by lia. lia.
Qed.

Lemma before_lt (L i : nat) : (i < L)%nat -> (before L i < L)%nat.
Proof. intros Hi. unfold before. destruct (Nat.eqb_spec i 0); lia. Qed.

Lemma after_lt (L i : nat) : (i < L)%nat -> (after L i < L)%nat.
Proof. intros Hi. unfold after. destruct (Nat.eqb_spec (i + 1) L); lia. Qed.

Lemma cell_index_lt (L i j : nat) :
  (i < L)%nat -> (j < L)%nat -> (i * L + j < L * L)%nat.
Proof. intros Hi Hj. nia. Qed.

Lemma cell_index_inj (L i j i' j' : nat) :
  (j < L)%nat -> (j' < L)%nat ->
  (i * L + j = i' * L + j')%nat -> i = i' /\ j = j'.
Proof.
  intros Hj Hj' Heq.
  assert (i = i'); [|subst; lia].
  destruct (Nat.lt_trichotomy i i') as [Hlt|[Heq'|Hgt]]; [nia|exact Heq'|nia].
Qed.

Lemma cell_index_Z (L i j : nat) :
  Z.to_nat (Z.of_nat i * Z.of_nat L + Z.of_nat j) = (i * L + j)%nat.
Proof. lia. Qed.

(** Every row of the lattice array is the row of a cell. *)
Lemma cell_of_index (L ind : nat) :
  (ind < L * L)%nat ->
  exists i j, (i < L)%nat /\ (j < L)%nat /\ ind = (i * L + j)%nat.
Proof.
  intros Hind. assert (HL : L <> 0%nat) by lia.
  exists (ind / L)%nat, (ind mod L)%nat.
  split; [apply Nat.Div0.div_lt_upper_bound; lia|].
  split; [apply Nat.mod_upper_bound; exact HL|].
  rewrite (Nat.div_mod_eq ind L) at 1. lia.
Qed.

Lemma in_cells (L i j : nat) :
  In (i, j) (cells L) <-> (i < L)%nat /\ (j < L)%nat.
Proof.
  unfold cells. rewrite in_flat_map. split.
  - intros (i' & Hi & Hij). apply in_map_iff in Hij as (j' & [= <- <-] & Hj).
    apply in_seq in Hi, Hj. lia.
  - intros [Hi Hj]. exists i. split; [apply in_seq; lia|].
    apply in_map_iff. exists j. split; [reflexivity|apply in_seq; lia].
Qed.
End Torus.

(** ** One sweep of the lattice *)

(** The design's value depends on the store through column [t - 1] only. *)
Lemma diffused_column {A : Type} `{Arith A} (L : nat) (c d : A)
    (a b : list (list A)) (t : nat) (g : list A) (i j : nat) :
  (forall ind, at2 a ind (t - 1) = at2 b ind (t - 1)) ->
  diffused L c d a t g i j = diffused L c d b t g i j.
Proof. intros Hab. unfold diffused. rewrite !Hab. reflexivity. Qed.

Lemma diffused_Some {A : Type} `{Arith A} (L : nat) (c d : A)
    (a : list (list A)) (t : nat) (g : list A) (i j : nat) (v : A) :
  diffused L c d a t g i j = Some v ->
  exists x xa xb xc xd gi,
    at2 a (i * L + j) (t - 1) = Some x /\
    at2 a (before L i * L + j) (t - 1) = Some xa /\
    at2 a (i * L + after L j) (t - 1) = Some xb /\
    at2 a (after L i * L + j) (t - 1) = Some xc /\
    at2 a (i * L + before L j) (t - 1) = Some xd /\
    g !! (i * L + j)%nat = Some gi /\
    v = diffusion c d x xa xb xc xd gi.
Proof.
  unfold diffused.
  destruct (at2 a (i * L + j) (t - 1)) as [x|]; [|discriminate].
  destruct (at2 a (before L i * L + j) (t - 1)) as [xa|]; [|discriminate].
  destruct (at2 a (i * L + after L j) (t - 1)) as [xb|]; [|discriminate].
  destruct (at2 a (after L i * L + j) (t - 1)) as [xc|]; [|discriminate].
  destruct (at2 a (i * L + before L j) (t - 1)) as [xd|]; [|discriminate].
  destruct (g !! (i * L + j)%nat) as [gi|]; [|discriminate].
  simpl. intros [= <-]. exists x, xa, xb, xc, xd, gi. auto 10.
Qed.

Section Sweep.
Context {A : Type} `{Arith A}.
Variables (L dp : nat) (c d : A) (t : nat) (g : list A).
Hypothesis Ht : (1 <= t < dp)%nat.
Hypothesis Hg : length g = (L * L)%nat.

Lemma diffused_ext (a b : list (list A)) (i j : nat) :
  same_off_column t a b -> diffused L c d a t g i j = diffused L c d b t g i j.
Proof.
  intros Hab. apply diffused_column. intros ind. apply Hab. lia.
Qed.

Lemma diffused_is_Some (a : list (list A)) (i j : nat) :
  shape2 (L * L) dp a -> (i < L)%nat -> (j < L)%nat ->
  is_Some (diffused L c d a t g i j).
Proof.
  intros Ha Hi Hj. unfold diffused.
  pose proof (before_lt L i Hi). pose proof (after_lt L i Hi).
  pose proof (before_lt L j Hj). pose proof (after_lt L j Hj).
  destruct (shape2_at2 _ _ a (i * L + j) (t - 1) Ha) as [x ->];
    [apply cell_index_lt; assumption|lia|].
  destruct (shape2_at2 _ _ a (before L i * L + j) (t - 1) Ha) as [xa ->];
    [apply cell_index_lt; assumption|lia|].
  destruct (shape2_at2 _ _ a (i * L + after L j) (t - 1) Ha) as [xb ->];
    [apply cell_index_lt; assumption|lia|].
  destruct (shape2_at2 _ _ a (after L i * L + j) (t - 1) Ha) as [xc ->];
    [apply cell_index_lt; assumption|lia|].
  destruct (shape2_at2 _ _ a (i * L + before L j) (t - 1) Ha) as [xd ->];
    [apply cell_index_lt; assumption|lia|].
  destruct (lookup_lt_is_Some_2 g (i * L + j)) as [gi ->];
    [rewrite Hg; apply cell_index_lt; assumption|].
  simpl. eauto.
Qed.

(** The body of the loops, on a cell of the lattice: it reads column
    [t - 1] and writes the design's value at [(i * L + j, t)]. *)
Lemma lattice_update_spec (a : list (list A)) (i j : nat) (v : A) :
  shape2 (L * L) dp a -> (i < L)%nat -> (j < L)%nat ->
  diffused L c d a t g i j = Some v ->
  lattice_update L c d t g a (i, j) = Returned (set2 a (i * L + j) t v).
Proof.
  intros Ha Hi Hj. unfold diffused, lattice_update.
  rewrite (wrap_before L i Hi), (wrap_after L i Hi).
  rewrite (wrap_before L j Hj), (wrap_after L j Hj).
  rewrite <- !Nat2Z.inj_mul, <- !Nat2Z.inj_add, !Nat2Z.id.
  destruct (at2 a (i * L + j) (t - 1)) as [x|] eqn:Hx; [|discriminate].
  destruct (at2 a (before L i * L + j) (t - 1)) as [xa|] eqn:Hxa; [|discriminate].
  destruct (at2 a (i * L + after L j) (t - 1)) as [xb|] eqn:Hxb; [|discriminate].
  destruct (at2 a (after L i * L + j) (t - 1)) as [xc|] eqn:Hxc; [|discriminate].
  destruct (at2 a (i * L + before L j) (t - 1)) as [xd|] eqn:Hxd; [|discriminate].
  destruct (g !! (i * L + j)%nat) as [gi|] eqn:Hgi; [|discriminate].
  simpl. intros [= <-].
  rewrite (read2_at2 _ _ _ _ Hx), (read2_at2 _ _ _ _ Hxa),
    (read2_at2 _ _ _ _ Hxb), (read2_at2 _ _ _ _ Hxc),
    (read2_at2 _ _ _ _ Hxd), (read1_lookup _ _ _ Hgi).
  simpl. apply (write2_set2 (L * L) dp); [exact Ha| |lia].
  apply cell_index_lt; assumption.
Qed.

(** The two loops visit the cells in the order of [cells L]. *)
Lemma lattice_sweep_cells (a : list (list A)) :
  lattice_sweep L c d t g a = lattice_sweep_in (cells L) L c d t g a.
Proof.
  unfold lattice_sweep, lattice_sweep_in, cells.
  apply (for_each_pairs (lattice_update L c d t g)).
Qed.

(** Whatever the order, a sweep that starts from [a0] leaves the columns
    other than [t] as they were and gives every cell visited the design's
    value, computed from [a0]: the cells already written ([done]) are not
    read. *)
Lemma lattice_sweep_in_inv (a0 : list (list A)) (order : list (nat * nat)) :
  shape2 (L * L) dp a0 ->
  (forall i j, In (i, j) order -> (i < L)%nat /\ (j < L)%nat) ->
  forall (done : list (nat * nat)) (a : list (list A)),
  shape2 (L * L) dp a -> same_off_column t a a0 ->
  (forall i j, In (i, j) done -> (i < L)%nat -> (j < L)%nat ->
     at2 a (i * L + j) t = diffused L c d a0 t g i j) ->
  exists a',
    lattice_sweep_in order L c d t g a = Returned a' /\
    shape2 (L * L) dp a' /\ same_off_column t a' a0 /\
    (forall ind, (forall i j, In (i, j) (done ++ order) -> ind <> (i * L + j)%nat) ->
       at2 a' ind t = at2 a ind t) /\
    forall i j, In (i, j) (done ++ order) -> (i < L)%nat -> (j < L)%nat ->
      at2 a' (i * L + j) t = diffused L c d a0 t g i j.
Proof.
  intros Ha0. unfold lattice_sweep_in.
  induction order as [|[i0 j0] rest IH]; intros Hrange done a Ha Hsame Hdone.
  - exists a. rewrite app_nil_r. simpl. auto.
  - destruct (Hrange i0 j0 (or_introl eq_refl)) as [Hi0 Hj0].
    destruct (diffused_is_Some a0 i0 j0 Ha0 Hi0 Hj0)
      as [v Hv].
    assert (Hv' : diffused L c d a t g i0 j0 = Some v)
      by (rewrite (diffused_ext a a0 i0 j0 Hsame); exact Hv).
    cbn [for_each].
    rewrite (lattice_update_spec a i0 j0 v Ha Hi0 Hj0 Hv').
    cbn [mbind outcome_bind].
    assert (Hind0 : (i0 * L + j0 < L * L)%nat)
      by (apply cell_index_lt; assumption).
    destruct (IH (fun i j Hin => Hrange i j (or_intror Hin))
                 (done ++ [(i0, j0)]) (set2 a (i0 * L + j0) t v))
      as (a' & Hrun & Hsh & Hoff & Hkeep & Hval).
    + apply set2_shape, Ha.
    + intros ind t' Hne. rewrite at2_set2_ne by (right; exact Hne).
      apply Hsame, Hne.
    + intros i j Hin Hi Hj. apply in_app_or in Hin.
      destruct (decide (i * L + j = i0 * L + j0)%nat) as [Heq|Hne].
      * destruct (cell_index_inj L i j i0 j0 Hj Hj0 Heq) as [-> ->].
        rewrite (at2_set2_eq (L * L) dp) by (assumption || lia).
        symmetry. exact Hv.
      * rewrite at2_set2_ne by (left; exact Hne).
        destruct Hin as [Hin|[Heq|[]]]; [apply Hdone; assumption|].
        injection Heq as <- <-. congruence.
    + exists a'. rewrite <- app_assoc in Hkeep, Hval. simpl in Hkeep, Hval.
      split; [exact Hrun|]. split; [exact Hsh|]. split; [exact Hoff|].
      split; [|exact Hval].
      intros ind Hind. rewrite (Hkeep ind Hind).
      apply at2_set2_ne. left. apply Hind, in_or_app. right. left. reflexivity.
Qed.

Lemma at2_outside (rows cols : nat) (a : list (list A)) (i j : nat) :
  shape2 rows cols a -> (rows <= i)%nat -> at2 a i j = None.
Proof.
  intros [Hl _] Hi. unfold at2.
  rewrite (lookup_ge_None_2 a i) by lia. reflexivity.
Qed.

(** A sweep over all the cells, in any order. *)
Lemma lattice_sweep_in_spec (a0 : list (list A)) (order : list (nat * nat)) :
  shape2 (L * L) dp a0 -> Permutation order (cells L) ->
  exists a',
    lattice_sweep_in order L c d t g a0 = Returned a' /\
    shape2 (L * L) dp a' /\ same_off_column t a' a0 /\
    forall i j, (i < L)%nat -> (j < L)%nat ->
      at2 a' (i * L + j) t = diffused L c d a0 t g i j.
Proof.
  intros Ha0 Hperm.
  destruct (lattice_sweep_in_inv a0 order Ha0) with (done := @nil (nat * nat))
                                                   (a := a0)
    as (a' & Hrun & Hsh & Hoff & _ & Hval).
  - intros i j Hin. apply in_cells.
    eapply Permutation_in; [exact Hperm|exact Hin].
  - exact Ha0.
  - intros ind t' _. reflexivity.
  - intros i j [].
  - exists a'. split; [exact Hrun|]. split; [exact Hsh|]. split; [exact Hoff|].
    intros i j Hi Hj. apply Hval; [|exact Hi|exact Hj].
    simpl. eapply Permutation_in; [symmetry; exact Hperm|].
    apply in_cells. auto.
Qed.

(** The order in which a sweep visits the cells does not matter. *)
Lemma lattice_sweep_any_order (a0 : list (list A)) (order : list (nat * nat)) :
  shape2 (L * L) dp a0 -> Permutation order (cells L) ->
  lattice_sweep_in order L c d t g a0 = lattice_sweep L c d t g a0.
Proof.
  intros Ha0 Hperm. rewrite lattice_sweep_cells.
  destruct (lattice_sweep_in_spec a0 order Ha0 Hperm)
    as (a1 & -> & Hsh1 & Hoff1 & Hval1).
  destruct (lattice_sweep_in_spec a0 (cells L) Ha0 (Permutation_refl _))
    as (a2 & -> & Hsh2 & Hoff2 & Hval2).
  f_equal. apply (shape2_ext (L * L) dp); [exact Hsh1|exact Hsh2|].
  intros ind t'. destruct (decide (t' = t)) as [->|Hne].
  - destruct (le_lt_dec (L * L) ind) as [Hge|Hlt].
    + rewrite (at2_outside _ _ a1 ind t Hsh1 Hge).
      rewrite (at2_outside _ _ a2 ind t Hsh2 Hge). reflexivity.
    + destruct (cell_of_index L ind Hlt) as (i & j & Hi & Hj & ->).
      rewrite Hval1, Hval2 by assumption. reflexivity.
  - rewrite Hoff1, Hoff2 by exact Hne. reflexivity.
Qed.
End Sweep.

(** ** The time-evolution loop of the spatial cell *)

Section SpatialRun.
Context {A Gen Glob : Type} `{Arith A} `{Sampler A Gen Glob}.
Variables (dp : nat) (values p : list A) (L : nat) (c d : A) (seed : Z).

Lemma lattice_step_eq (st : lattice A Gen Glob) (t : nat) :
  lattice_step values p L c d st t =
  (a ← lattice_sweep L c d t
         (lattice_factors values p L (rng (lat_world st))).1 (allxs st);
   mret (Lattice
           (World (after_draws (rng_choice values p) (L * L) (rng (lat_world st)))
                  (np_random (lat_world st)))
           a)).
Proof.
  unfold lattice_step, lattice_factors.
  rewrite <- (draws_state (rng_choice values p) (L * L)).
  destruct (draws (rng_choice values p) (L * L) (rng (lat_world st))).
  reflexivity.
Qed.

Lemma lattice_evolve_succ (k : nat) (st : lattice A Gen Glob) :
  lattice_evolve values p L c d (Datatypes.S k) st =
  (st' ← lattice_evolve values p L c d k st;
   lattice_step values p L c d st' (Datatypes.S k)).
Proof.
  unfold lattice_evolve. rewrite seq_S, for_each_app. simpl.
  destruct (for_each _ (seq 1 k) st) as [st'|e]; simpl; [|reflexivity].
  destruct (lattice_step values p L c d st' (Datatypes.S k)); reflexivity.
Qed.

Lemma batch_lookup (t i : nat) :
  (i < L * L)%nat ->
  batch values p L seed t !! i =
  Some (nth_draw (rng_choice values p) ((t - 1) * (L * L) + i) (default_rng seed)).
Proof.
  intros Hi. unfold batch, lattice_factors.
  rewrite draws_lookup by exact Hi. rewrite nth_draw_add. reflexivity.
Qed.

(** After [k] steps: every column written so far holds the design's
    values, computed from the column before it. *)
Lemma lattice_evolve_inv (st0 : lattice A Gen Glob) (k : nat) :
  shape2 (L * L) dp (allxs st0) -> rng (lat_world st0) = default_rng seed ->
  (k < dp)%nat ->
  exists st,
    lattice_evolve values p L c d k st0 = Returned st /\
    shape2 (L * L) dp (allxs st) /\
    rng (lat_world st) =
      after_draws (rng_choice values p) (k * (L * L)) (default_rng seed) /\
    np_random (lat_world st) = np_random (lat_world st0) /\
    (forall ind, at2 (allxs st) ind 0 = at2 (allxs st0) ind 0) /\
    forall t i j, (1 <= t <= k)%nat -> (i < L)%nat -> (j < L)%nat ->
      is_Some (at2 (allxs st) (i * L + j) t) /\
      at2 (allxs st) (i * L + j) t =
      diffused L c d (allxs st) t (batch values p L seed t) i j.
Proof.
  intros Hsh0 Hrng0. induction k as [|k IH]; intros Hk.
  - exists st0. split; [reflexivity|]. split; [exact Hsh0|].
    split; [exact Hrng0|]. split; [reflexivity|].
    split; [reflexivity|]. intros t i j Ht. lia.
  - destruct IH as (st & Hrun & Hsh & Hrng & Hglob & Hcol0 & Hval); [lia|].
    rewrite lattice_evolve_succ, Hrun. cbn [mbind outcome_bind].
    rewrite lattice_step_eq, Hrng.
    assert (Hb : (lattice_factors values p L
                    (after_draws (rng_choice values p) (k * (L * L))
                                 (default_rng seed))).1 =
                 batch values p L seed (Datatypes.S k)).
    { unfold batch. do 3 f_equal. lia. }
    rewrite Hb.
    assert (Ht : (1 <= Datatypes.S k < dp)%nat) by lia.
    assert (Hg : length (batch values p L seed (Datatypes.S k)) = (L * L)%nat)
      by apply draws_length.
    rewrite (lattice_sweep_cells L c d (Datatypes.S k)).
    destruct (lattice_sweep_in_spec L dp c d (Datatypes.S k) _ Ht Hg
                (allxs st) (cells L) Hsh (Permutation_refl _))
      as (a' & -> & Hsh' & Hoff & Hnew).
    cbn [mbind outcome_bind mret outcome_ret].
    eexists. split; [reflexivity|]. cbn [allxs lat_world rng np_random].
    split; [exact Hsh'|].
    split; [rewrite <- after_draws_add; f_equal; lia|].
    split; [exact Hglob|].
    split; [intros ind; rewrite Hoff by lia; apply Hcol0|].
    intros t i j Htk Hi Hj.
    destruct (decide (t = Datatypes.S k)) as [->|Hne].
    + rewrite (Hnew i j Hi Hj).
      split; [apply (diffused_is_Some L dp); assumption|].
      apply diffused_column. intros ind. symmetry. apply Hoff. lia.
    + destruct (Hval t i j) as [Hsome Heq]; [lia|exact Hi|exact Hj|].
      rewrite (Hoff _ t Hne). split; [exact Hsome|].
      rewrite Heq. apply diffused_column. intros ind. symmetry.
      apply Hoff. lia.
Qed.
End SpatialRun.

Section SpatialCell.
Context {A Gen Glob : Type} `{Arith A} `{Sampler A Gen Glob}.

Lemma initial_lattice_state_eq (dp L : nat) (seed : Z) (glob : Glob) :
  (0 < dp)%nat ->
  initial_lattice_state dp L seed glob =
  Returned
    (Lattice (World (default_rng seed)
                    (after_draws (np_random_randint 1 10) (L * L) glob))
             (set_column 0 (map of_int (initial_lattice L glob).1)
                         (zeros (L * L) dp))).
Proof.
  intros Hdp. unfold initial_lattice_state, initial_lattice.
  rewrite <- (draws_state (np_random_randint 1 10) (L * L)).
  destruct (draws (np_random_randint 1 10) (L * L) glob).
  destruct dp; [lia|reflexivity].
Qed.

Lemma initial_lattice_shape (dp L : nat) (glob : Glob) :
  shape2 (L * L) dp
    (set_column 0 (map of_int (initial_lattice L glob).1) (zeros (L * L) dp)).
Proof.
  apply set_column_shape; [|apply zeros_shape].
  rewrite length_map. apply draws_length.
Qed.

(** C2: a run of the spatial cell with [dp >= 1] returns, and in the array
    it returns, for every step [1 <= t < dp] and every cell [(i, j)] of the
    lattice, the value at step [t] is
    [((1 - 4d) * x + d * (xa + xb + xc + xd)) * g + c], where [x] and
    [xa], [xb], [xc], [xd] are the values at step [t - 1] of the cell and
    of its four neighbours, rows and columns wrapped modulo [L], and [g] is
    the cell's own draw of the step, draw number
    [(t - 1) * L * L + i * L + j] of the seeded generator.  Moreover a sweep
    gives every cell the value computed from the array as it was before the
    sweep, leaves the other columns as they were, and does so in every
    order of the cells. *)
Theorem spatial_update_synchronous (dp : nat) (values p : list A) (L : nat)
    (c d : A) (seed : Z) (glob : Glob) :
  (0 < dp)%nat ->
  exists st,
    spatial_run dp values p L c d seed glob = Returned st /\
    shape2 (L * L) dp (allxs st) /\
    (forall t i j, (1 <= t < dp)%nat -> (i < L)%nat -> (j < L)%nat ->
       exists x xa xb xc xd,
         at2 (allxs st) (i * L + j) (t - 1) = Some x /\
         at2 (allxs st) (before L i * L + j) (t - 1) = Some xa /\
         at2 (allxs st) (i * L + after L j) (t - 1) = Some xb /\
         at2 (allxs st) (after L i * L + j) (t - 1) = Some xc /\
         at2 (allxs st) (i * L + before L j) (t - 1) = Some xd /\
         at2 (allxs st) (i * L + j) t =
           Some (diffusion c d x xa xb xc xd
                   (nth_draw (rng_choice values p)
                             ((t - 1) * (L * L) + (i * L + j))
                             (default_rng seed)))) /\
    (forall t g a order,
       (1 <= t < dp)%nat -> length g = (L * L)%nat ->
       shape2 (L * L) dp a -> Permutation order (cells L) ->
       exists a',
         lattice_sweep L c d t g a = Returned a' /\
         lattice_sweep_in order L c d t g a = Returned a' /\
         same_off_column t a' a /\
         forall i j, (i < L)%nat -> (j < L)%nat ->
           at2 a' (i * L + j) t = diffused L c d a t g i j).
Proof.
  intros Hdp. unfold spatial_run.
  rewrite initial_lattice_state_eq by exact Hdp. cbn [mbind outcome_bind].
  destruct (lattice_evolve_inv dp values p L c d seed
              (Lattice (World (default_rng seed)
                              (after_draws (np_random_randint 1 10) (L * L) glob))
                       (set_column 0 (map of_int (initial_lattice L glob).1)
                                   (zeros (L * L) dp)))
              (dp - 1))
    as (st & Hrun & Hsh & _ & _ & _ & Hval).
  { apply initial_lattice_shape. }
  { reflexivity. }
  { lia. }
  exists st. split; [exact Hrun|]. split; [exact Hsh|]. split.
  - intros t i j Ht Hi Hj.
    destruct (Hval t i j) as [[v Hv] Heq]; [lia|exact Hi|exact Hj|].
    rewrite Hv in Heq. symmetry in Heq.
    apply diffused_Some in Heq
      as (x & xa & xb & xc & xd & gi & Hx & Hxa & Hxb & Hxc & Hxd & Hgi & ->).
    rewrite batch_lookup in Hgi by (apply cell_index_lt; assumption).
    injection Hgi as <-.
    exists x, xa, xb, xc, xd. rewrite Hv. auto 10.
  - intros t g a order Ht Hg Ha Hperm.
    destruct (lattice_sweep_in_spec L dp c d t g Ht Hg a order Ha Hperm)
      as (a' & Hrun' & _ & Hoff & Hnew).
    exists a'. rewrite <- (lattice_sweep_any_order L dp c d t g Ht Hg a order Ha Hperm).
    auto.
Qed.
End SpatialCell.

(** ** What the laws of the generators give *)

Lemma counter_sampler_laws {A : Type} `{Arith A} :
  SamplerLaws (counter_sampler (A:=A)).
Proof.
  split.
  - intros lo hi s Hlt. simpl.
    pose proof (Z.mod_pos_bound (Z.of_nat s) (hi - lo)). lia.
  - intros lo hi s Hlt. simpl.
    pose proof (Z.mod_pos_bound (Z.of_nat s) (hi - lo)). lia.
  - intros values p s Hne. simpl. apply nth_In.
    apply Nat.mod_upper_bound. destruct values; [congruence|discriminate].
Qed.

Section Laws.
Context {A Gen Glob : Type} `{Arith A} (Smp : Sampler A Gen Glob).
Context (laws : SamplerLaws Smp).

Lemma at2_Forall {T : Type} (P : T -> Prop) (a : list (list T)) (i j : nat)
    (x : T) :
  Forall (Forall P) a -> at2 a i j = Some x -> P x.
Proof.
  intros Ha Hx. apply at2_Some in Hx as (row & Hrow & Hx).
  pose proof (proj1 (Forall_lookup _ _) Ha i row Hrow) as HP.
  exact (proj1 (Forall_lookup _ _) HP j x Hx).
Qed.

(** Every factor of a batch of the three-value and binary cells is one
    of the values. *)
Lemma choice_factors_Forall (P : A -> Prop) values p S M tau w s m g :
  values <> [] -> Forall P values ->
  at2 (choice_factors values p S M tau w).1 s m = Some g -> Forall P g.
Proof.
  intros Hne HP. rewrite choice_factors_eq. simpl.
  apply at2_Forall. apply draws2_Forall. intros s'.
  apply draws_Forall. intros s''.
  apply (proj1 (List.Forall_forall P values) HP).
  apply rng_choice_elem, Hne.
Qed.

Lemma initial_abundance_range S M seed s m z :
  at2 (initial_abundance S M seed).1 s m = Some z -> (1 <= z <= 9)%Z.
Proof.
  apply (at2_Forall (fun z => 1 <= z <= 9)%Z).
  apply draws2_Forall. intros s'.
  pose proof (rng_integers_range 1 10 s'). lia.
Qed.

Lemma initial_lattice_range L glob i z :
  (initial_lattice L glob).1 !! i = Some z -> (1 <= z <= 9)%Z.
Proof.
  intros Hz.
  assert (HF : Forall (fun z => 1 <= z <= 9)%Z (initial_lattice L glob).1).
  { apply draws_Forall. intros s'.
    pose proof (np_random_randint_range 1 10 s'). lia. }
  exact (proj1 (Forall_lookup _ _) HF i z Hz).
Qed.
End Laws.

(** C10: with generators that draw as numpy documents, every run of a
    non-spatial cell starts from abundances that are the integers drawn in
    turn by [rng.integers(1, 10)], each between 1 and 9, one per (species,
    site) cell; and every run of the spatial cell with [dp >= 1] starts from
    a first column that holds the integers drawn in turn by
    [np.random.randint(1, 10)], each between 1 and 9, one per lattice
    cell. *)
Theorem initial_values_between_1_and_9 {A Gen Glob : Type} `{Arith A}
    (Smp : Sampler A Gen Glob) (dp M S L : nat) (seed : Z) (glob : Glob) :
  SamplerLaws Smp ->
  shape2 S M (current (initial_state dp M S seed glob)) /\
  (forall s m, (s < S)%nat -> (m < M)%nat ->
     exists z, (1 <= z <= 9)%Z /\
       z = nth_draw (rng_integers 1 10) (s * M + m) (default_rng seed) /\
       at2 (current (initial_state dp M S seed glob)) s m = Some (of_int z)) /\
  ((0 < dp)%nat ->
   exists st,
     initial_lattice_state dp L seed glob = Returned st /\
     shape2 (L * L) dp (allxs st) /\
     forall i, (i < L * L)%nat ->
       exists z, (1 <= z <= 9)%Z /\
         z = nth_draw (np_random_randint 1 10) i glob /\
         at2 (allxs st) i 0 = Some (of_int z)).
Proof.
  intros laws. split; [apply initial_state_shaped|]. split.
  - intros s m Hs Hm.
    pose proof (draws2_at2 (rng_integers 1 10) S M s m (default_rng seed) Hs Hm)
      as Hz.
    fold (initial_abundance S M seed) in Hz.
    eexists. split; [eapply (initial_abundance_range Smp laws), Hz|].
    split; [reflexivity|].
    rewrite initial_state_eq. cbn zeta. simpl.
    rewrite at2_map, Hz. reflexivity.
  - intros Hdp. rewrite initial_lattice_state_eq by exact Hdp.
    eexists. split; [reflexivity|]. simpl.
    split; [apply initial_lattice_shape|].
    intros i Hi.
    pose proof (draws_lookup (np_random_randint 1 10) (L * L) i glob Hi) as Hz.
    fold (initial_lattice L glob) in Hz.
    eexists. split; [eapply (initial_lattice_range Smp laws), Hz|].
    split; [reflexivity|].
    rewrite (set_column_at2 0 (L * L) dp); try assumption.
    + simpl. rewrite list_lookup_fmap, Hz. reflexivity.
    + rewrite length_map. apply draws_length.
    + apply zeros_shape.
Qed.

Lemma initial_values_between_1_and_9_witness :
  SamplerLaws (counter_sampler (A:=float)) /\
  shape2 2 3 (current (initial_state (A:=float) (Gen:=nat) 4 3 2 0 0%nat)) /\
  exists z, (1 <= z <= 9)%Z /\
    at2 (current (initial_state (A:=float) (Gen:=nat) 4 3 2 0 0%nat)) 1 2 =
    Some (of_int z).
Proof.
  split; [apply counter_sampler_laws|].
  destruct (initial_values_between_1_and_9 (A:=float) counter_sampler
              4 3 2 2 0 0%nat counter_sampler_laws) as (Hsh & Hcell & _).
  split; [exact Hsh|].
  destruct (Hcell 1%nat 2%nat) as (z & Hz & _ & Hat); [lia|lia|].
  exists z. split; [exact Hz|exact Hat].
Defined.

Section PositiveWitness.
Local Open Scope R_scope.

Lemma abundances_stay_positive_witness :
  0 < 1 /\ (0 < 3)%nat /\ (0 < 4)%nat /\
  exists r,
    choice_run (A:=R) (Gen:=nat) 4 [/ 2; 1; 2]%R [/ 4; / 2; / 4]%R 3 2 2 1
               0 0%nat = Returned r /\
    positive2 (res_N r).
Proof.
  split; [lra|]. split; [lia|]. split; [lia|].
  destruct (abundances_stay_positive (Gen:=nat) (Glob:=nat)
              (choice_factors [/ 2; 1; 2]%R [/ 4; / 2; / 4]%R 2 3 2)
              4 3 2 1 0 0%nat) as (r & Hrun & _ & HN & _).
  - lra.
  - lia.
  - lia.
  - apply choice_factors_shaped.
  - intros w s m g.
    apply (choice_factors_Forall counter_sampler counter_sampler_laws).
    + discriminate.
    + repeat constructor; lra.
  - intros s m z Hz.
    pose proof (initial_abundance_range counter_sampler counter_sampler_laws
                  _ _ _ _ _ _ Hz).
    lia.
  - exists r. split; [exact Hrun|exact HN].
Defined.
End PositiveWitness.

(** ** Reproducibility *)

Section Reproducibility.
Context {A Gen Glob : Type} `{Arith A} `{Sampler A Gen Glob}.

Lemma macro_step_seeded values p Sp M tau c t (st1 st2 : state A Gen Glob) :
  seeded_part st1 = seeded_part st2 ->
  seeded_part (macro_step (choice_factors values p Sp M tau) c st1 t) =
  seeded_part (macro_step (choice_factors values p Sp M tau) c st2 t).
Proof.
  unfold seeded_part. intros [= Hr Hc HN].
  rewrite !macro_step_eq. cbn zeta. simpl.
  rewrite !choice_factors_eq. simpl. rewrite Hr, Hc, HN. reflexivity.
Qed.

Lemma evolve_seeded values p Sp M tau c k (st1 st2 : state A Gen Glob) :
  seeded_part st1 = seeded_part st2 ->
  seeded_part (evolve (choice_factors values p Sp M tau) c k st1) =
  seeded_part (evolve (choice_factors values p Sp M tau) c k st2).
Proof.
  intros Heq. induction k as [|k IH]; [exact Heq|].
  rewrite !evolve_succ. apply macro_step_seeded, IH.
Qed.

(** Two runs of the three-value cell, or of the binary cell, with the same
    parameters and the same seed compute the same series, rates and final
    abundances, whatever the state of numpy's global generator: these cells
    draw from the seeded generator only. *)
Lemma choice_run_reproducible dp values p M tau Sp c seed (glob1 glob2 : Glob) :
  computed (choice_run dp values p M tau Sp c seed glob1) =
  computed (choice_run dp values p M tau Sp c seed glob2).
Proof.
  unfold choice_run, accumulate. destruct dp as [|dp]; [reflexivity|].
  cbn [computed mbind outcome_bind mret outcome_ret res_N res_G res_current
       res_world].
  assert (Heq : seeded_part
                  (evolve (choice_factors values p Sp M tau) c
                          (Datatypes.S dp - 1)
                          (initial_state (Datatypes.S dp) M Sp seed glob1)) =
                seeded_part
                  (evolve (choice_factors values p Sp M tau) c
                          (Datatypes.S dp - 1)
                          (initial_state (Datatypes.S dp) M Sp seed glob2))).
  { apply evolve_seeded. rewrite !initial_state_eq. reflexivity. }
  unfold seeded_part in Heq. injection Heq as Hr Hc HN.
  change (Datatypes.S dp - 1)%nat with (dp - 0)%nat.
  rewrite Hr, Hc, HN. reflexivity.
Qed.
End Reproducibility.

(** C3 (the code at the failing inputs): the spatial cell draws its initial
    lattice from numpy's global generator, and the log-uniform cell its
    factors; neither is seeded by the cell.  Two runs of the spatial cell
    with the same parameters and the same seed, started with the global
    generator in two states, return different lattices; and so do two such
    runs of the log-uniform cell return different series. *)
Theorem unseeded_draws_break_reproducibility :
  spatial_run (A:=float) (Gen:=nat) 2 [1%float] [1%float] 1 1%float 0%float 0 0%nat
    = Returned (Lattice (World 1%nat 1%nat) [[1%float; 2%float]]) /\
  spatial_run (A:=float) (Gen:=nat) 2 [1%float] [1%float] 1 1%float 0%float 0 1%nat
    = Returned (Lattice (World 1%nat 2%nat) [[2%float; 3%float]]) /\
  (exists r, log_uniform_run (A:=R) (Gen:=nat) 2 1%R 2%R 1 1 1 1%R 0 0%nat
               = Returned r /\ res_N r = [[1%R; 2%R]]) /\
  (exists r, log_uniform_run (A:=R) (Gen:=nat) 2 1%R 2%R 1 1 1 1%R 0 1%nat
               = Returned r /\ res_N r = [[1%R; 3%R]]).
Proof.
  split; [vm_compute; reflexivity|]. split; [vm_compute; reflexivity|].
  split.
  - eexists. split; [reflexivity|].
    cbv - [Rplus Rmult Rminus Rdiv Rinv IZR exp ln].
    rewrite ln_1, exp_0. do 3 f_equal. lra.
  - eexists. split; [reflexivity|].
    cbv - [Rplus Rmult Rminus Rdiv Rinv IZR exp ln].
    rewrite exp_ln by lra. do 3 f_equal. lra.
Qed.

(** ** Values that are not finite, in [float64] *)

Section NonFinite.
Local Open Scope float_scope.

Lemma non_finite_examples :
  non_finite infinity = true /\ non_finite neg_infinity = true /\
  non_finite nan = true /\ non_finite 1 = false /\ non_finite 0 = false /\
  float_is_zero 0 = true /\ float_is_zero (-0) = true /\
  float_is_zero 1 = false /\ float_is_zero nan = false.
Proof. repeat split; vm_compute; reflexivity. Qed.

Lemma mul_non_finite (x y : float) :
  non_finite x = true -> non_finite (x * y) = true.
Proof.
  unfold non_finite. rewrite mul_spec. unfold SF64mul, SFmul.
  destruct (Prim2SF x); try discriminate; destruct (Prim2SF y); reflexivity.
Qed.

Lemma add_non_finite_l (x y : float) :
  non_finite x = true -> non_finite (x + y) = true.
Proof.
  unfold non_finite. rewrite add_spec. unfold SF64add, SFadd.
  destruct (Prim2SF x) as [| sx | |]; try discriminate;
    destruct (Prim2SF y) as [| sy | |]; try reflexivity.
  intros _. destruct sx, sy; reflexivity.
Qed.

Lemma add_non_finite_r (x y : float) :
  non_finite y = true -> non_finite (x + y) = true.
Proof.
  unfold non_finite. rewrite add_spec. unfold SF64add, SFadd.
  destruct (Prim2SF y) as [| sy | |]; try discriminate;
    destruct (Prim2SF x) as [| sx | |]; try reflexivity.
  intros _. destruct sx, sy; reflexivity.
Qed.

(** A quotient whose denominator is a zero is [inf], [-inf] or [nan]. *)
Lemma div_by_zero_non_finite (x y : float) :
  float_is_zero x = true -> non_finite (y / x) = true.
Proof.
  unfold float_is_zero, non_finite. rewrite div_spec. unfold SF64div, SFdiv.
  destruct (Prim2SF x); try discriminate; destruct (Prim2SF y); reflexivity.
Qed.

Lemma fold_add_non_finite_acc (l : list float) (acc : float) :
  non_finite acc = true -> non_finite (fold_left PrimFloat.add l acc) = true.
Proof.
  revert acc. induction l as [|y l IH]; intros acc Hacc; simpl.
  - exact Hacc.
  - apply IH, add_non_finite_l, Hacc.
Qed.

Lemma fold_add_non_finite (l : list float) (acc : float) (i : nat) (x : float) :
  l !! i = Some x -> non_finite x = true ->
  non_finite (fold_left PrimFloat.add l acc) = true.
Proof.
  revert acc i. induction l as [|y l IH]; intros acc i Hi Hx.
  - discriminate.
  - destruct i as [|i]; simpl in *.
    + injection Hi as ->. apply fold_add_non_finite_acc, add_non_finite_r, Hx.
    + exact (IH _ i Hi Hx).
Qed.

(** One entry that is not finite makes [np.sum] not finite. *)
Lemma sum_non_finite (l : list float) (i : nat) (x : float) :
  l !! i = Some x -> non_finite x = true -> non_finite (sum l) = true.
Proof.
  intros Hi Hx. destruct l as [|y l]; [discriminate|].
  cbn [sum add Arith_float]. destruct i as [|i]; simpl in Hi.
  - injection Hi as ->. apply fold_add_non_finite_acc, Hx.
  - exact (fold_add_non_finite l y i x Hi Hx).
Qed.

(** The macro step of a cell whose value is not finite leaves a value that
    is not finite, whatever the factors and [c]. *)
Lemma update_cell_non_finite (c x : float) (g : list float) :
  non_finite x = true -> non_finite (update_cell c x g) = true.
Proof.
  intros Hx. unfold update_cell. cbn [add mul Arith_float].
  apply add_non_finite_l, add_non_finite_l, mul_non_finite, Hx.
Qed.
End NonFinite.

(** ** What a run reports *)

(** C4 (amended): [G] is computed from [N] by plain element-wise division
    and nothing is checked.  In a run with [dp >= 1] whose generators
    accept their arguments (a seed [>= 0], a sampler that returns its
    batches of factors), [G] has one row per species and [dp - 1] columns,
    and for every species [s] and every [t] with [t + 1 < dp], [G[s, t]] is
    the quotient [N[s, t + 1] / N[s, t]], whatever the denominator, [<= 0]
    included: no error is reported on it.  In [float64] a quotient whose
    denominator is a zero is [inf], [-inf] or [nan]. *)
Theorem growth_rates_are_plain_ratios {A Gen Glob : Type} `{Arith A}
    `{Sampler A Gen Glob} (sample : factor_sampler A Gen Glob)
    (dp M S : nat) (c : A) (seed : Z) (glob : Glob) :
  (0 < dp)%nat -> (0 <= seed)%Z -> shaped S M sample ->
  (exists r,
     accumulate sample dp M S c seed glob = Returned r /\
     res_G r = growth_rates (res_N r) /\
     shape2 S (dp - 1) (res_G r) /\
     forall s t, (s < S)%nat -> (t + 1 < dp)%nat ->
       exists x y,
         at2 (res_N r) s t = Some x /\ at2 (res_N r) s (t + 1) = Some y /\
         at2 (res_G r) s t = Some (div y x)) /\
  (forall x y : float,
     float_is_zero x = true -> non_finite (PrimFloat.div y x) = true).
Proof.
  intros Hdp _ Hsh. split; [|exact div_by_zero_non_finite].
  rewrite accumulate_returns by exact Hdp. cbn zeta.
  eexists. split; [reflexivity|]. cbn [res_N res_G].
  assert (HN : shape2 S dp
                 (N (evolve sample c (dp - 1) (initial_state dp M S seed glob)))).
  { apply (evolve_shaped sample c S M dp); [exact Hsh|].
    apply initial_state_shaped. }
  split; [reflexivity|]. split; [apply growth_rates_shape; exact HN|].
  intros s t Hs Ht. rewrite growth_rates_at2.
  destruct (shape2_at2 _ _ _ s t HN Hs) as [x Hx]; [lia|].
  destruct (shape2_at2 _ _ _ s (t + 1) HN Hs Ht) as [y Hy].
  exists x, y. rewrite Hx, Hy. auto.
Qed.

Section Reports.
Context {Gen Glob : Type} `{Sampler float Gen Glob}.
Implicit Types (sample : factor_sampler float Gen Glob).

Lemma non_finite_cell_stays sample (dp M S : nat) (c : float) (seed : Z)
    (glob : Glob) (k s m : nat) (x : float) :
  shaped S M sample ->
  at2 (current (evolve sample c k (initial_state dp M S seed glob))) s m
    = Some x ->
  non_finite x = true ->
  forall n, exists x',
    at2 (current (evolve sample c (k + n) (initial_state dp M S seed glob))) s m
      = Some x' /\
    non_finite x' = true.
Proof.
  intros Hsh Hx Hnf.
  assert (Hcur : forall j,
            shape2 S M (current (evolve sample c j
                                        (initial_state dp M S seed glob)))).
  { intros j.
    apply (evolve_shaped sample c S M dp); [exact Hsh|].
    apply initial_state_shaped. }
  destruct (at2_shape2 _ _ _ _ _ _ (Hcur k) Hx) as [Hs Hm].
  induction n as [|n IH].
  - rewrite Nat.add_0_r. exists x. auto.
  - destruct IH as (x' & Hx' & Hnf').
    rewrite Nat.add_succ_r, evolve_succ, macro_step_current, Hx'.
    destruct (shape2_at2 _ _ _ s m
                (Hsh (st_world (evolve sample c (k + n)
                                       (initial_state dp M S seed glob))))
                Hs Hm) as [g Hg].
    rewrite Hg. simpl. eexists. split; [reflexivity|].
    apply update_cell_non_finite, Hnf'.
Qed.

(** C5 (amended): during evolution no abundance is checked for finiteness
    and none is reported as an overflow.  In [float64], in a run with
    [dp >= 1] whose generators accept their arguments (a seed [>= 0], a
    sampler that returns its batches of factors), a cell whose abundance
    after [k] macro steps is not finite ([inf], [-inf] or [nan]) holds a
    value that is not finite after every later macro step, as does the entry
    of its species in the series [N] at every step [t >= k],
    [1 <= t < dp]; the loop goes on to its end and the series is
    returned. *)
Theorem non_finite_abundance_is_carried_forward sample (dp M S : nat)
    (c : float) (seed : Z) (glob : Glob) (k s m : nat) (x : float) :
  (0 < dp)%nat -> (0 <= seed)%Z -> shaped S M sample ->
  at2 (current (evolve sample c k (initial_state dp M S seed glob))) s m
    = Some x ->
  non_finite x = true ->
  exists r,
    accumulate sample dp M S c seed glob = Returned r /\
    (forall t, (k <= t)%nat ->
       exists x',
         at2 (current (evolve sample c t (initial_state dp M S seed glob))) s m
           = Some x' /\
         non_finite x' = true) /\
    (forall t, (k <= t)%nat -> (1 <= t < dp)%nat ->
       exists n, at2 (res_N r) s t = Some n /\ non_finite n = true).
Proof.
  intros Hdp _ Hsh Hx Hnf.
  rewrite accumulate_returns by exact Hdp. cbn zeta.
  eexists. split; [reflexivity|]. cbn [res_N].
  assert (Hstay : forall t, (k <= t)%nat ->
            exists x',
              at2 (current (evolve sample c t (initial_state dp M S seed glob)))
                  s m = Some x' /\
              non_finite x' = true).
  { intros t Ht.
    destruct (non_finite_cell_stays sample dp M S c seed glob k s m x
                Hsh Hx Hnf (t - k)) as (x' & Hx' & Hnf').
    replace (k + (t - k))%nat with t in Hx' by lia.
    exists x'. auto. }
  split; [exact Hstay|].
  intros t Hkt Ht.
  destruct (Hstay t Hkt) as (x' & Hx' & Hnf').
  apply at2_Some in Hx'. destruct Hx' as (row & Hrow & Hm).
  exists (sum row). split; [|exact (sum_non_finite row m x' Hm Hnf')].
  assert (Hs : (s < S)%nat).
  { assert (Hcur : shape2 S M (current (evolve sample c k
                                          (initial_state dp M S seed glob)))).
    { apply (evolve_shaped sample c S M dp); [exact Hsh|].
      apply initial_state_shaped. }
    exact (proj1 (at2_shape2 _ _ _ _ _ _ Hcur Hx)). }
  rewrite (evolve_N sample c S M dp (initial_state dp M S seed glob)
                    (dp - 1) s t Hsh (initial_state_shaped dp M S seed glob) Hs)
    by lia.
  destruct t as [|t]; [lia|]. rewrite Hrow. reflexivity.
Qed.
End Reports.

Section Concrete.
Local Open Scope float_scope.

(** C4, as stated, fails: with [c = -1] the series of the three-value cell
    reaches [0] and goes on below it; the run returns, with [-inf] for the
    rate whose denominator is [0] and the plain quotient for the rate
    whose denominator is negative. *)
Lemma zero_denominator_yields_infinity :
  choice_run (A:=float) (Gen:=nat) 4 [0.5; 1; 2] [0.25; 0.5; 0.25] 1 1 1
             (-1) 0 0%nat =
  Returned (Result [[1; 0; -1; -1.5]] [[0; neg_infinity; 1.5]] [[-1.5]]
                   (World 4%nat 0%nat)).
Proof. vm_compute. reflexivity. Qed.

(** C5, as stated, fails: with a factor of [2^600] the abundance
    overflows at the second step; the run returns, the third step carries
    [inf] on, and the rates hold [inf] and [nan]. *)
Lemma overflow_is_carried_forward :
  choice_run (A:=float) (Gen:=nat) 4 [0x1p+600] [1] 1 1 1 1 0 0%nat =
  Returned (Result [[1; 0x1p+600; infinity; infinity]]
                   [[0x1p+600; infinity; nan]] [[infinity]]
                   (World 4%nat 0%nat)).
Proof. vm_compute. reflexivity. Qed.

(** C8, as stated, fails: with [dp = 3] (one cell, [tau = 1], every factor
    [1], [c = 1]) the cell goes [1, 2, 3]: two updates and two draws of
    factors after the initial draw, where three updates would leave
    [4]. *)
Lemma three_entries_two_updates :
  choice_run (A:=float) (Gen:=nat) 3 [1] [1] 1 1 1 1 0 0%nat =
    Returned (Result [[1; 2; 3]] [[2; 1.5]] [[3]] (World 3%nat 0%nat)) /\
  current (evolve (choice_factors (A:=float) (Gen:=nat) (Glob:=nat)
                                  [1] [1] 1 1 1)
                  1 3 (initial_state 3 1 1 0 0%nat)) = [[4]].
Proof. split; vm_compute; reflexivity. Qed.

Lemma growth_rates_are_plain_ratios_witness :
  (0 < 4)%nat /\ (0 <= 0)%Z /\
  shaped 1 1 (choice_factors (A:=float) (Gen:=nat) (Glob:=nat)
                             [0.5; 1; 2] [0.25; 0.5; 0.25] 1 1 1) /\
  exists r,
    choice_run (A:=float) (Gen:=nat) 4 [0.5; 1; 2] [0.25; 0.5; 0.25] 1 1 1
               (-1) 0 0%nat = Returned r /\
    shape2 1 3 (res_G r) /\
    exists x y,
      at2 (res_N r) 0 1 = Some x /\ at2 (res_N r) 0 2 = Some y /\
      at2 (res_G r) 0 1 = Some (y / x).
Proof.
  assert (Hdp : (0 < 4)%nat) by lia.
  assert (Hseed : (0 <= 0)%Z) by lia.
  assert (Hsh : shaped 1 1 (choice_factors (A:=float) (Gen:=nat) (Glob:=nat)
                              [0.5; 1; 2] [0.25; 0.5; 0.25] 1 1 1))
    by apply choice_factors_shaped.
  split; [exact Hdp|]. split; [exact Hseed|]. split; [exact Hsh|].
  destruct (growth_rates_are_plain_ratios
              (choice_factors (A:=float) (Gen:=nat) (Glob:=nat)
                              [0.5; 1; 2] [0.25; 0.5; 0.25] 1 1 1)
              4 1 1 (-1) 0 0%nat Hdp Hseed Hsh)
    as [(r & Hrun & _ & HG & Hq) _].
  exists r. split; [exact Hrun|]. split; [exact HG|].
  apply (Hq 0%nat 1%nat); lia.
Defined.

Lemma non_finite_abundance_is_carried_forward_witness :
  (0 < 4)%nat /\ (0 <= 0)%Z /\
  shaped 1 1 (choice_factors (A:=float) (Gen:=nat) (Glob:=nat)
                             [0x1p+600] [1] 1 1 1) /\
  at2 (current (evolve (choice_factors (A:=float) (Gen:=nat) (Glob:=nat)
                                       [0x1p+600] [1] 1 1 1)
                       1 2 (initial_state 4 1 1 0 0%nat))) 0 0
    = Some infinity /\
  non_finite infinity = true /\
  exists r,
    choice_run (A:=float) (Gen:=nat) 4 [0x1p+600] [1] 1 1 1 1 0 0%nat
      = Returned r /\
    exists n, at2 (res_N r) 0 3 = Some n /\ non_finite n = true.
Proof.
  assert (Hdp : (0 < 4)%nat) by lia.
  assert (Hseed : (0 <= 0)%Z) by lia.
  assert (Hsh : shaped 1 1 (choice_factors (A:=float) (Gen:=nat) (Glob:=nat)
                              [0x1p+600] [1] 1 1 1))
    by apply choice_factors_shaped.
  assert (Hx : at2 (current (evolve (choice_factors (A:=float) (Gen:=nat)
                                                    (Glob:=nat)
                                                    [0x1p+600] [1] 1 1 1)
                                    1 2 (initial_state 4 1 1 0 0%nat))) 0 0
               = Some infinity) by (vm_compute; reflexivity).
  assert (Hnf : non_finite infinity = true) by (vm_compute; reflexivity).
  split; [exact Hdp|]. split; [exact Hseed|]. split; [exact Hsh|].
  split; [exact Hx|]. split; [exact Hnf|].
  destruct (non_finite_abundance_is_carried_forward
              (choice_factors (A:=float) (Gen:=nat) (Glob:=nat)
                              [0x1p+600] [1] 1 1 1)
              4 1 1 1 0 0%nat 2 0 0 infinity Hdp Hseed Hsh Hx Hnf)
    as (r & Hrun & _ & HN).
  exists r. split; [exact Hrun|]. apply (HN 3%nat); lia.
Defined.

Lemma choice_run_macro_steps_witness :
  (0 < 3)%nat /\
  exists r,
    choice_run (A:=float) (Gen:=nat) 3 [0.5; 1; 2] [0.25; 0.5; 0.25] 3 2 2 1
               0 0%nat = Returned r /\
    shape2 2 3 (res_N r) /\
    rng (res_world r) =
      after_draws (rng_choice [0.5; 1; 2] [0.25; 0.5; 0.25])
                  ((3 - 1) * (2 * 3 * 2))
                  (rng (st_world (initial_state (A:=float) (Glob:=nat)
                                                3 3 2 0 0%nat))).
Proof.
  split; [lia|].
  destruct (choice_run_macro_steps (A:=float) (Gen:=nat) (Glob:=nat)
              3 [0.5; 1; 2] [0.25; 0.5; 0.25] 3 2 2 1 0 0%nat)
    as (r & Hrun & Hsh & _ & Hrng & _); [lia|].
  exists r. split; [exact Hrun|]. split; [exact Hsh|exact Hrng].
Defined.

Lemma spatial_update_synchronous_witness :
  (0 < 3)%nat /\
  exists st,
    spatial_run (A:=float) (Gen:=nat) 3 [0.5; 1; 2] [0.25; 0.5; 0.25] 2 1
                0.125 0 0%nat = Returned st /\
    shape2 (2 * 2) 3 (allxs st).
Proof.
  split; [lia|].
  destruct (spatial_update_synchronous (A:=float) (Gen:=nat) (Glob:=nat)
              3 [0.5; 1; 2] [0.25; 0.5; 0.25] 2 1 0.125 0 0%nat)
    as (st & Hrun & Hsh & _); [lia|].
  exists st. split; [exact Hrun|exact Hsh].
Defined.
End Concrete.

(** ** The parameters of the cells *)

Section CellParameters.
Local Open Scope R_scope.

Lemma three_value_cell_parameters {Gen Glob : Type} `{Sampler R Gen Glob}
    dp alpha p_down M tau Sp c seed (glob : Glob) :
  three_value_cell dp alpha p_down M tau Sp c seed glob =
  choice_run dp three_value_values
             [p_down; three_value_p_stay alpha p_down;
              three_value_p_up alpha p_down]
             M tau Sp c seed glob.
Proof. reflexivity. Qed.

Lemma spatial_cell_parameters {Gen Glob : Type} `{Sampler R Gen Glob}
    dp alpha L p0 c d seed (glob : Glob) :
  spatial_cell dp alpha L p0 c d seed glob =
  spatial_run dp three_value_values
              [p0; three_value_p_stay alpha p0; three_value_p_up alpha p0]
              L c d seed glob.
Proof. reflexivity. Qed.

Lemma log_uniform_cell_parameters {Gen Glob : Type} `{Sampler R Gen Glob}
    fsolve dp alpha e initial_guess M tau Sp c seed (glob : Glob) :
  log_uniform_cell fsolve dp alpha e initial_guess M tau Sp c seed glob =
  let b := fsolve (equation alpha e) initial_guess in
  log_uniform_run dp (log_uniform_low b e) (log_uniform_high b e)
                  M tau Sp c seed glob.
Proof. reflexivity. Qed.

Lemma Rpower_2_pos (alpha : R) : 0 < Rpower 2 alpha.
Proof. apply exp_pos. Qed.

Lemma Rpower_2_neq_1 (alpha : R) : alpha <> 0 -> Rpower 2 alpha <> 1.
Proof.
  intros Ha Heq. apply Ha. unfold Rpower in Heq.
  rewrite <- exp_0 in Heq. apply exp_inv in Heq.
  assert (0 < ln 2) by (rewrite <- ln_1; apply ln_increasing; lra).
  nra.
Qed.

Lemma Rpower_half (alpha : R) : Rpower (1 / 2) alpha = / Rpower 2 alpha.
Proof.
  rewrite <- Rpower_Ropp. unfold Rpower. f_equal.
  replace (1 / 2) with (/ 2) by lra. rewrite ln_Rinv by lra. ring.
Qed.

Lemma Rpower_one (alpha : R) : Rpower 1 alpha = 1.
Proof. unfold Rpower. rewrite ln_1, Rmult_0_r. apply exp_0. Qed.

Lemma three_value_p_up_R (alpha p_down : R) :
  alpha <> 0 -> three_value_p_up alpha p_down = p_down * / Rpower 2 alpha.
Proof.
  intros Ha. unfold three_value_p_up.
  cbn [pow Elementary_R div mul sub of_int Arith_R].
  replace (0 - alpha) with (- alpha) by ring. rewrite Rpower_Ropp.
  pose proof (Rpower_2_pos alpha). pose proof (Rpower_2_neq_1 alpha Ha).
  field. split; lra.
Qed.

(** With [alpha <> 0] the probabilities of the three-value cell satisfy
    [p_up = p_down * 2^(-alpha)]; the three of them add up to 1, and the
    moment of order [alpha] of the factor, the sum of [p * v^alpha] over the
    three values [1/2, 1, 2], is 1. *)
Theorem three_value_moment_matching (alpha p_down : R) :
  alpha <> 0 ->
  three_value_p_up alpha p_down = p_down * pow 2 (- alpha) /\
  p_down + three_value_p_stay alpha p_down + three_value_p_up alpha p_down = 1 /\
  Rsum (zip_with (fun p v => p * pow v alpha)
                 [p_down; three_value_p_stay alpha p_down;
                  three_value_p_up alpha p_down]
                 three_value_values) = 1.
Proof.
  intros Ha. pose proof (three_value_p_up_R alpha p_down Ha) as Hup.
  pose proof (Rpower_2_pos alpha) as Hpos.
  split; [|split].
  - rewrite Hup. cbn [pow Elementary_R]. rewrite Rpower_Ropp. reflexivity.
  - unfold three_value_p_stay. cbn [sub of_int Arith_R]. lra.
  - unfold three_value_p_stay, three_value_values. rewrite Hup.
    cbn [zip_with Rsum fold_right pow Elementary_R div sub of_int Arith_R].
    rewrite Rpower_half, Rpower_one. field. lra.
Qed.

Lemma three_value_moment_matching_witness :
  7 / 10 <> 0 /\
  (1 / 5) + three_value_p_stay (7 / 10) (1 / 5)
          + three_value_p_up (7 / 10) (1 / 5) = 1.
Proof.
  split; [lra|].
  apply (three_value_moment_matching (7 / 10) (1 / 5)). lra.
Defined.

(** With [alpha > 0] and [p_down >= 0], [p_up] lies between 0 and [p_down],
    and [p_stay] is a probability exactly when
    [p_down * (1 + 2^(-alpha)) <= 1]: beyond that the cell computes a
    negative [p_stay] and passes it on. *)
Theorem three_value_probabilities_range (alpha p_down : R) :
  0 < alpha -> 0 <= p_down ->
  0 <= three_value_p_up alpha p_down <= p_down /\
  (0 <= three_value_p_stay alpha p_down <->
   p_down * (1 + pow 2 (- alpha)) <= 1).
Proof.
  intros Ha Hp.
  assert (Hup := three_value_p_up_R alpha p_down (Rgt_not_eq _ _ Ha)).
  assert (Hu : 1 < Rpower 2 alpha).
  { rewrite <- (Rpower_O 2) by lra. unfold Rpower.
    apply exp_increasing.
    assert (0 < ln 2) by (rewrite <- ln_1; apply ln_increasing; lra).
    nra. }
  assert (Hinv : 0 < / Rpower 2 alpha < 1).
  { split; [apply Rinv_0_lt_compat; lra|].
    rewrite <- Rinv_1. apply Rinv_0_lt_contravar; lra. }
  unfold three_value_p_stay. rewrite Hup.
  cbn [pow Elementary_R sub of_int Arith_R]. rewrite Rpower_Ropp.
  split; [nra|]. split; intros; nra.
Qed.

Lemma three_value_probabilities_range_witness :
  0 < 7 / 10 /\ 0 <= 1 / 5 /\
  0 <= three_value_p_up (7 / 10) (1 / 5) <= 1 / 5.
Proof.
  split; [lra|]. split; [lra|].
  apply (three_value_probabilities_range (7 / 10) (1 / 5)); lra.
Defined.
End CellParameters.

Section MoreParameters.
Local Open Scope R_scope.

Lemma log_uniform_low_R (b e : R) : log_uniform_low b e = exp (e - b).
Proof.
  unfold log_uniform_low. cbn [np_exp Elementary_R add sub of_int Arith_R].
  f_equal. ring.
Qed.

Lemma log_uniform_high_R (b e : R) : log_uniform_high b e = exp (e + b).
Proof.
  unfold log_uniform_high. cbn [np_exp Elementary_R add Arith_R].
  f_equal. ring.
Qed.

Lemma Rpower_exp (x alpha : R) : Rpower (exp x) alpha = exp (x * alpha).
Proof. unfold Rpower. rewrite ln_exp. f_equal. ring. Qed.

(** The bounds of the log-uniform cell are positive, their product is
    [exp(2e)], their logarithms are [2b] apart, and [low < high] exactly
    when [b > 0].  For [alpha <> 0] and [b <> 0], [b] is a root of the
    cell's [equation] exactly when the moment of order [alpha] of the
    log-uniform density on [[low, high]],
    [(high^alpha - low^alpha) / (alpha * ln(high / low))], is 1. *)
Theorem log_uniform_bounds (alpha e b : R) :
  alpha <> 0 -> b <> 0 ->
  0 < log_uniform_low b e /\ 0 < log_uniform_high b e /\
  log_uniform_low b e * log_uniform_high b e = exp (2 * e) /\
  np_log (log_uniform_high b e) - np_log (log_uniform_low b e) = 2 * b /\
  (log_uniform_low b e < log_uniform_high b e <-> 0 < b) /\
  (equation alpha e b = 0 <->
   (pow (log_uniform_high b e) alpha - pow (log_uniform_low b e) alpha)
   / (alpha * np_log (log_uniform_high b e / log_uniform_low b e)) = 1).
Proof.
  intros Ha Hb. rewrite log_uniform_low_R, log_uniform_high_R.
  cbn [np_log pow Elementary_R].
  split; [apply exp_pos|]. split; [apply exp_pos|].
  split; [rewrite <- exp_plus; f_equal; ring|].
  split; [rewrite !ln_exp; ring|].
  split.
  - split; intros Hlt.
    + apply exp_lt_inv in Hlt. lra.
    + apply exp_increasing. lra.
  - unfold Rdiv at 2. rewrite <- exp_Ropp, <- exp_plus, ln_exp.
    rewrite !Rpower_exp. unfold equation.
    cbn [np_exp Elementary_R add sub mul div of_int Arith_R].
    replace ((b + e) * alpha) with ((e + b) * alpha) by ring.
    replace ((0 - b + e) * alpha) with ((e - b) * alpha) by ring.
    replace (alpha * (e + b + - (e - b))) with (2 * b * alpha) by ring.
    lra.
Qed.

Lemma log_uniform_bounds_witness :
  7 / 10 <> 0 /\ 1 <> 0 /\ 0 < log_uniform_low 1 (- 1 / 10).
Proof.
  split; [lra|]. split; [lra|].
  apply (log_uniform_bounds (7 / 10) (- 1 / 10) 1); lra.
Defined.

Lemma Rpower_ge_1 (x alpha : R) :
  0 < alpha -> 0 < x -> 1 <= Rpower x alpha -> 1 <= x.
Proof.
  intros Ha Hx Hp. destruct (Rle_lt_dec 1 x) as [Hle|Hlt]; [exact Hle|].
  pose proof (Rlt_Rpower_l x 1 alpha Ha (conj Hx Hlt)) as H1.
  rewrite Rpower_one in H1. lra.
Qed.

Lemma Rpower_le_1 (x alpha : R) :
  0 < alpha -> 0 < x -> Rpower x alpha <= 1 -> x <= 1.
Proof.
  intros Ha Hx Hp. destruct (Rle_lt_dec x 1) as [Hle|Hlt]; [exact Hle|].
  assert (H01 : 0 < 1 < x) by lra.
  pose proof (Rlt_Rpower_l 1 x alpha Ha H01) as H1.
  rewrite Rpower_one in H1. lra.
Qed.

(** The two factors of the binary cell are positive, and for [alpha > 0]
    they lie on the two sides of 1: [g0 <= 1 <= g1] when [gamma >= 1], and
    [g1 <= 1 <= g0] when [gamma <= 1]. *)
Theorem binary_factors_bracket_one (gamma alpha : R) :
  0 < gamma -> 0 < alpha ->
  0 < binary_g0 gamma alpha /\ 0 < binary_g1 gamma alpha /\
  (1 <= gamma -> binary_g0 gamma alpha <= 1 <= binary_g1 gamma alpha) /\
  (gamma <= 1 -> binary_g1 gamma alpha <= 1 <= binary_g0 gamma alpha).
Proof.
  intros Hg Ha.
  assert (H0 : 0 < binary_g0 gamma alpha)
    by (unfold binary_g0; cbn [pow Elementary_R]; apply exp_pos).
  assert (H1 : 0 < binary_g1 gamma alpha)
    by (unfold binary_g1; cbn [mul Arith_R]; apply Rmult_lt_0_compat; assumption).
  pose proof (binary_g0_pow gamma alpha Ha) as Hp0.
  assert (Hp1 : pow (binary_g1 gamma alpha) alpha =
                Rpower gamma alpha * (2 / (1 + Rpower gamma alpha))).
  { rewrite <- Hp0. unfold binary_g1. cbn [pow mul Elementary_R Arith_R].
    rewrite Rpower_mult_distr; [reflexivity|exact Hg|exact H0]. }
  cbn [pow Elementary_R] in Hp0, Hp1.
  assert (Hu : 0 < Rpower gamma alpha) by apply exp_pos.
  assert (Hq : 0 < / (1 + Rpower gamma alpha))
    by (apply Rinv_0_lt_compat; lra).
  split; [exact H0|]. split; [exact H1|]. split.
  - intros Hge.
    assert (1 <= Rpower gamma alpha).
    { rewrite <- (Rpower_one alpha). apply Rle_Rpower_l; lra. }
    split.
    + apply (Rpower_le_1 _ alpha Ha H0). rewrite Hp0.
      apply Rmult_le_reg_r with (1 + Rpower gamma alpha); [lra|].
      unfold Rdiv. rewrite Rmult_assoc, Rinv_l by lra. lra.
    + apply (Rpower_ge_1 _ alpha Ha H1). rewrite Hp1.
      apply Rmult_le_reg_r with (1 + Rpower gamma alpha); [lra|].
      unfold Rdiv. rewrite !Rmult_assoc, Rinv_l by lra. lra.
  - intros Hle.
    assert (Rpower gamma alpha <= 1).
    { rewrite <- (Rpower_one alpha). apply Rle_Rpower_l; lra. }
    split.
    + apply (Rpower_le_1 _ alpha Ha H1). rewrite Hp1.
      apply Rmult_le_reg_r with (1 + Rpower gamma alpha); [lra|].
      unfold Rdiv. rewrite !Rmult_assoc, Rinv_l by lra. lra.
    + apply (Rpower_ge_1 _ alpha Ha H0). rewrite Hp0.
      apply Rmult_le_reg_r with (1 + Rpower gamma alpha); [lra|].
      unfold Rdiv. rewrite Rmult_assoc, Rinv_l by lra. lra.
Qed.

Lemma binary_factors_bracket_one_witness :
  0 < 3 /\ 0 < 7 / 10 /\
  binary_g0 3 (7 / 10) <= 1 <= binary_g1 3 (7 / 10).
Proof.
  split; [lra|]. split; [lra|].
  apply (binary_factors_bracket_one 3 (7 / 10)); lra.
Defined.
End MoreParameters.

(** ** More on the macro step, over the reals *)

Section MacroStepLaws.
Local Open Scope R_scope.

Lemma update_cell_substeps (c x : R) (g : list R) :
  g <> [] -> update_cell c x g = substeps c g x.
Proof.
  intros Hg. rewrite update_cell_R, substeps_solution.
  destruct g as [|g1 t]; [congruence|]. cbn [tail suffix_sum]. lra.
Qed.

(** Two macro steps in a row, over the batches [g1] and then [g2], both
    non-empty, are one macro step over the batch [g1 ++ g2]: coarse-graining
    time by [tau1 + tau2] sub-steps is coarse-graining by [tau1] and then by
    [tau2].  Not so with an empty batch, on which a macro step still adds
    [c]. *)
Theorem macro_steps_compose (c x : R) (g1 g2 : list R) :
  g1 <> [] -> g2 <> [] ->
  update_cell c (update_cell c x g1) g2 = update_cell c x (g1 ++ g2) /\
  update_cell c x [] = x + c.
Proof.
  intros H1 H2. split.
  - rewrite !update_cell_substeps; try assumption.
    + unfold substeps. rewrite fold_left_app. reflexivity.
    + destruct g1; [congruence|discriminate].
  - unfold update_cell. simpl. lra.
Qed.

Lemma macro_steps_compose_witness :
  [2; / 2]%R <> [] /\ [1; 2; 2]%R <> [] /\
  update_cell 1 (update_cell 1 3 [2; / 2]%R) [1; 2; 2]%R =
  update_cell 1 3 ([2; / 2] ++ [1; 2; 2])%R.
Proof.
  split; [discriminate|]. split; [discriminate|].
  apply (macro_steps_compose 1 3 [2; / 2]%R [1; 2; 2]%R); discriminate.
Defined.

Lemma update_cell_above (c x : R) (g : list R) :
  0 < c -> 0 < x -> Forall (Rlt 0) g -> c < update_cell c x g.
Proof.
  intros Hc Hx Hg. rewrite update_cell_R.
  assert (0 < x * Rprod g)
    by (apply Rmult_lt_0_compat; [exact Hx|apply Rprod_pos, Hg]).
  assert (0 <= suffix_sum (tail g)).
  { apply suffix_sum_nonneg. destruct Hg; [constructor|assumption]. }
  assert (0 <= c * suffix_sum (tail g)) by (apply Rmult_le_pos; lra).
  lra.
Qed.

Lemma Rsum_above (c : R) (l : list R) :
  l <> [] -> Forall (Rlt c) l -> INR (length l) * c < Rsum l.
Proof.
  intros Hne Hl. induction Hl as [|x l Hx Hl IH]; [congruence|].
  cbn [Rsum fold_right]. fold (Rsum l). rewrite length_cons, S_INR.
  destruct l as [|y l'].
  - simpl. lra.
  - assert (INR (length (y :: l')) * c < Rsum (y :: l'))
      by (apply IH; discriminate).
    lra.
Qed.
End MacroStepLaws.

Section SeriesBounds.
Local Open Scope R_scope.
Context {Gen Glob : Type} `{Sampler R Gen Glob}.
Implicit Types (sample : factor_sampler R Gen Glob).

(** Every entry of [N] is positive when the loop ends. *)
Lemma evolve_N_positive sample dp M Sp c seed glob :
  0 < c -> (0 < M)%nat -> (0 < dp)%nat ->
  shaped Sp M sample -> positive_factors sample ->
  (forall s m z, at2 (initial_abundance Sp M seed).1 s m = Some z -> (0 < z)%Z) ->
  positive2 (N (evolve sample c (dp - 1) (initial_state dp M Sp seed glob))).
Proof.
  intros Hc HM Hdp Hsh Hg Hinit s t x Hx.
  pose proof (initial_state_shaped (A:=R) dp M Sp seed glob) as Hst0.
  pose proof (evolve_shaped sample c Sp M dp (dp - 1) _ Hsh Hst0) as [_ HNs].
  destruct (at2_shape2 _ _ _ _ _ _ HNs Hx) as [Hs Ht].
  rewrite (evolve_N sample c Sp M dp) in Hx by (assumption || lia).
  destruct t as [|t].
  - exact (initial_state_N_positive dp M Sp seed glob s x HM Hdp Hinit Hx).
  - eapply (site_sum_positive Sp M); [exact HM| | |exact Hx].
    + apply (evolve_shaped sample c Sp M dp); assumption.
    + apply evolve_positive; try assumption.
      apply initial_state_positive, Hinit.
Qed.

Lemma evolve_above sample c k st :
  0 < c -> positive_factors sample -> positive2 (current st) ->
  (1 <= k)%nat ->
  forall s m x, at2 (current (evolve sample c k st)) s m = Some x -> c < x.
Proof.
  intros Hc Hg Hcur Hk s m y. destruct k as [|k]; [lia|].
  rewrite evolve_succ, macro_step_current.
  destruct (at2 (current (evolve sample c k st)) s m) as [x|] eqn:Hx;
    [|discriminate].
  destruct (at2 (sample (st_world (evolve sample c k st))).1 s m) as [g|] eqn:Hgs;
    [|discriminate].
  simpl. intros [= <-]. apply update_cell_above; [exact Hc| |eapply Hg, Hgs].
  eapply (evolve_positive sample c k st Hc Hg Hcur), Hx.
Qed.

(** With [c > 0], positive factors and positive initial abundances, once a
    macro step is made every cell holds more than [c], and every entry of
    the series from step 1 on is more than [M * c]: the forcing is a floor
    under the abundances. *)
Theorem abundances_exceed_forcing sample (dp M S : nat) (c : R) (seed : Z)
    (glob : Glob) :
  0 < c -> (0 < M)%nat -> (0 < dp)%nat ->
  shaped S M sample -> positive_factors sample ->
  (forall s m z, at2 (initial_abundance S M seed).1 s m = Some z -> (0 < z)%Z) ->
  exists r,
    accumulate sample dp M S c seed glob = Returned r /\
    (forall k s m x, (1 <= k)%nat ->
       at2 (current (evolve sample c k (initial_state dp M S seed glob))) s m
         = Some x -> c < x) /\
    (forall s t x, (1 <= t)%nat -> at2 (res_N r) s t = Some x -> INR M * c < x).
Proof.
  intros Hc HM Hdp Hsh Hg Hinit.
  rewrite accumulate_returns by exact Hdp. cbn zeta.
  set (st0 := initial_state dp M S seed glob).
  pose proof (initial_state_shaped (A:=R) dp M S seed glob) as Hst0.
  fold st0 in Hst0.
  assert (Hpos0 : positive2 (current st0))
    by (apply initial_state_positive, Hinit).
  eexists. split; [reflexivity|]. simpl. split.
  - intros k s m x Hk. apply evolve_above; assumption.
  - intros s t x Ht Hx.
    pose proof (evolve_shaped sample c S M dp (dp - 1) st0 Hsh Hst0) as [_ HNs].
    destruct (at2_shape2 _ _ _ _ _ _ HNs Hx) as [Hs Htd].
    rewrite (evolve_N sample c S M dp) in Hx by (assumption || lia).
    destruct t as [|t]; [lia|].
    destruct (current (evolve sample c (Datatypes.S t) st0) !! s) as [row|] eqn:Hrow;
      [|discriminate].
    simpl in Hx. injection Hx as <-. rewrite sum_R.
    pose proof (evolve_shaped sample c S M dp (Datatypes.S t) st0 Hsh Hst0)
      as [Hcs _].
    rewrite <- (shape2_row _ _ _ _ _ Hcs Hrow).
    apply Rsum_above.
    + pose proof (shape2_row _ _ _ _ _ Hcs Hrow) as Hlen.
      destruct row; [simpl in Hlen; lia|discriminate].
    + apply Forall_lookup. intros m x Hx.
      apply (evolve_above sample c (Datatypes.S t) st0 Hc Hg Hpos0) with s m;
        [lia|].
      apply at2_Some. eauto.
Qed.
End SeriesBounds.

(** ** The log-uniform sampler *)

Section LogUniform.
Context {A Gen Glob : Type} `{Arith A} `{Elementary A} `{Sampler A Gen Glob}.

Lemma log_uniform_eq (low high : A) (Sp M tau : nat) (w : world Gen Glob) :
  log_uniform low high Sp M tau w =
  (map (map (map np_exp))
       (draws (draws (draws (np_random_uniform (np_log low) (np_log high)) tau) M)
              Sp (np_random w)).1,
   World (rng w)
         (after_draws (np_random_uniform (np_log low) (np_log high))
                      (Sp * M * tau) (np_random w))).
Proof.
  unfold log_uniform.
  pose proof (draws2_state
                (draws (np_random_uniform (np_log low) (np_log high)) tau)
                Sp M (np_random w)) as Hs.
  rewrite after_draws_nested in Hs.
  destruct (draws (draws (draws (np_random_uniform (np_log low) (np_log high)) tau) M)
                  Sp (np_random w)).
  simpl in *. rewrite Hs. reflexivity.
Qed.

Lemma log_uniform_shaped (low high : A) (Sp M tau : nat) :
  shaped Sp M (log_uniform low high Sp M tau).
Proof.
  intros w. rewrite log_uniform_eq. simpl.
  apply shape2_map. apply draws2_shape.
Qed.

Lemma log_uniform_at2 (low high : A) (Sp M tau : nat) (w : world Gen Glob)
    (s m : nat) (g : list A) :
  at2 (log_uniform low high Sp M tau w).1 s m = Some g ->
  exists u,
    at2 (draws (draws (draws (np_random_uniform (np_log low) (np_log high)) tau) M)
               Sp (np_random w)).1 s m = Some u /\
    g = map np_exp u.
Proof.
  rewrite log_uniform_eq. simpl. rewrite at2_map.
  destruct (at2 _ s m) as [u|]; [|discriminate].
  simpl. intros [= <-]. eauto.
Qed.

Lemma evolve_log_uniform_world (low high : A) (Sp M tau : nat) (c : A)
    (k : nat) (st : state A Gen Glob) :
  st_world (evolve (log_uniform low high Sp M tau) c k st) =
  World (rng (st_world st))
        (after_draws (np_random_uniform (np_log low) (np_log high))
                     (k * (Sp * M * tau)) (np_random (st_world st))).
Proof.
  induction k as [|k IH]; [destruct st as [[r gl] cur n]; reflexivity|].
  rewrite evolve_succ, macro_step_eq. cbn zeta. simpl.
  rewrite log_uniform_eq. simpl. rewrite IH. simpl.
  rewrite <- after_draws_add. do 2 f_equal. lia.
Qed.

(** The log-uniform cell uses the generator made from its seed for the
    [S * M] initial abundances only: a run with [dp >= 1] leaves it as these
    draws left it, and takes every factor, [(dp - 1) * S * M * tau] of them,
    from numpy's global generator. *)
Theorem log_uniform_run_generators (dp : nat) (low high : A) (M tau S : nat)
    (c : A) (seed : Z) (glob : Glob) :
  (0 < dp)%nat ->
  exists r,
    log_uniform_run dp low high M tau S c seed glob = Returned r /\
    rng (res_world r) =
      after_draws (rng_integers 1 10) (S * M) (default_rng seed) /\
    np_random (res_world r) =
      after_draws (np_random_uniform (np_log low) (np_log high))
                  ((dp - 1) * (S * M * tau)) glob.
Proof.
  intros Hdp. unfold log_uniform_run.
  rewrite accumulate_returns by exact Hdp. cbn zeta.
  eexists. split; [reflexivity|]. cbn [res_world].
  rewrite evolve_log_uniform_world, initial_state_eq. simpl.
  split; [|reflexivity].
  unfold initial_abundance. apply draws2_state.
Qed.
End LogUniform.

Section LogUniformReal.
Local Open Scope R_scope.
Context {Gen Glob : Type} (Smp : Sampler R Gen Glob).

(** The factors of the log-uniform sampler are positive, whatever the
    generator returns and whatever the bounds. *)
Lemma log_uniform_positive (low high : R) (Sp M tau : nat) :
  positive_factors (log_uniform low high Sp M tau).
Proof.
  intros w s m g Hg. apply log_uniform_at2 in Hg as (u & _ & ->).
  apply Forall_fmap. apply Forall_true. intros x. apply exp_pos.
Qed.

(** With a generator that draws between the ends it is given, and
    [0 < low <= high], every factor of the log-uniform sampler lies between
    [low] and [high]. *)
Theorem log_uniform_within_bounds (low high : R) (S M tau : nat)
    (w : world Gen Glob) (s m : nat) (g : list R) :
  UniformLaws Smp -> 0 < low -> low <= high ->
  at2 (log_uniform low high S M tau w).1 s m = Some g ->
  length g = tau /\ Forall (fun x => low <= x <= high) g.
Proof.
  intros laws Hlow Hle Hg. apply log_uniform_at2 in Hg as (u & Hu & ->).
  assert (Hln : ln low <= ln high).
  { destruct Hle as [Hlt | ->]; [left; apply ln_increasing; assumption|right; reflexivity]. }
  assert (HF : Forall (Forall (Forall (fun x => ln low <= x <= ln high)))
                 (draws (draws (draws (np_random_uniform (np_log low) (np_log high))
                                      tau) M) S (np_random w)).1).
  { apply draws2_Forall. intros s'. apply draws_Forall. intros s''.
    apply np_random_uniform_range. exact Hln. }
  split.
  - rewrite length_map.
    assert (HL : Forall (Forall (fun l : list R => length l = tau))
                   (draws (draws (draws (np_random_uniform (np_log low) (np_log high))
                                        tau) M) S (np_random w)).1).
    { apply draws2_Forall. intros s'. apply draws_length. }
    exact (at2_Forall _ _ s m u HL Hu).
  - apply Forall_fmap.
    pose proof (at2_Forall _ _ s m u HF Hu) as Hcell.
    eapply Forall_impl; [exact Hcell|].
    intros x [Hx1 Hx2]. simpl.
    assert (H1 : exp (ln low) <= exp x).
    { destruct Hx1 as [Hlt | ->]; [left; apply exp_increasing, Hlt|right; reflexivity]. }
    assert (H2 : exp x <= exp (ln high)).
    { destruct Hx2 as [Hlt | ->]; [left; apply exp_increasing, Hlt|right; reflexivity]. }
    rewrite exp_ln in H1 by exact Hlow. rewrite exp_ln in H2 by lra.
    split; assumption.
Qed.
End LogUniformReal.

Lemma counter_uniform_laws : UniformLaws (counter_sampler (A:=R)).
Proof.
  split. intros lo hi s Hle. simpl. destruct (Nat.even s); simpl; lra.
Qed.

Lemma log_uniform_within_bounds_witness :
  UniformLaws (counter_sampler (A:=R)) /\ (0 < 1)%R /\ (1 <= 2)%R /\
  exists g,
    at2 (log_uniform (A:=R) 1%R 2%R 2 3 4 (World 0%nat 0%nat)).1 1 2 = Some g /\
    Forall (fun x => 1 <= x <= 2)%R g.
Proof.
  split; [apply counter_uniform_laws|]. split; [lra|]. split; [lra|].
  destruct (shape2_at2 2 3 (log_uniform (A:=R) 1%R 2%R 2 3 4 (World 0%nat 0%nat)).1
              1 2 (log_uniform_shaped 1%R 2%R 2 3 4 _)) as [g Hg]; [lia|lia|].
  exists g. split; [exact Hg|].
  apply (log_uniform_within_bounds counter_sampler 1%R 2%R 2 3 4
           (World 0%nat 0%nat) 1 2 g counter_uniform_laws); [lra|lra|exact Hg].
Defined.

Lemma log_uniform_run_generators_witness :
  (0 < 3)%nat /\
  exists r,
    log_uniform_run (A:=R) (Gen:=nat) 3 1%R 2%R 3 2 2 1%R 0 5%nat = Returned r /\
    rng (res_world r) =
      after_draws (rng_integers 1 10) (2 * 3) (default_rng 0).
Proof.
  split; [lia|].
  destruct (log_uniform_run_generators (A:=R) (Gen:=nat) (Glob:=nat)
              3 1%R 2%R 3 2 2 1%R 0 5%nat) as (r & Hrun & Hrng & _); [lia|].
  exists r. split; [exact Hrun|exact Hrng].
Defined.

(** ** The series of the non-spatial cells *)

Section SeriesMeaning.
Context {A Gen Glob : Type} `{Arith A} `{Sampler A Gen Glob}.
Implicit Types (sample : factor_sampler A Gen Glob).

(** The series a run returns holds, for every species, the sum of the
    integers first drawn for its sites at step 0 and, at every step
    [1 <= t < dp], the sum over the sites of the abundances after [t] macro
    steps: a later step never rewrites an earlier entry, and no entry is
    left at the zero it was allocated with. *)
Theorem series_holds_site_sums sample (dp M S : nat) (c : A) (seed : Z)
    (glob : Glob) :
  shaped S M sample -> (0 < dp)%nat ->
  exists r,
    accumulate sample dp M S c seed glob = Returned r /\
    shape2 S dp (res_N r) /\
    (forall s, (s < S)%nat ->
       exists row,
         (initial_abundance S M seed).1 !! s = Some row /\
         at2 (res_N r) s 0 = Some (of_int (foldr Z.add 0%Z row))) /\
    (forall s t, (s < S)%nat -> (1 <= t < dp)%nat ->
       exists row,
         current (evolve sample c t (initial_state dp M S seed glob)) !! s
           = Some row /\
         at2 (res_N r) s t = Some (sum row)).
Proof.
  intros Hsh Hdp. rewrite accumulate_returns by exact Hdp. cbn zeta.
  pose proof (initial_state_shaped (A:=A) dp M S seed glob) as Hst0.
  eexists. split; [reflexivity|]. cbn [res_N].
  split; [apply (evolve_shaped sample c S M dp); assumption|]. split.
  - intros s Hs.
    rewrite (evolve_N sample c S M dp) by (assumption || lia).
    rewrite initial_state_eq. cbn zeta. simpl.
    rewrite (set_column_at2 0 S dp); try assumption.
    + simpl. rewrite list_lookup_fmap.
      destruct (lookup_lt_is_Some_2 (initial_abundance S M seed).1 s)
        as [row Hrow].
      { unfold initial_abundance. rewrite draws_length. exact Hs. }
      exists row. rewrite Hrow. auto.
    + rewrite length_map. apply draws_length.
    + apply zeros_shape.
  - intros s t Hs Ht.
    rewrite (evolve_N sample c S M dp) by (assumption || lia).
    destruct t as [|t]; [lia|].
    pose proof (evolve_shaped sample c S M dp (Datatypes.S t) _ Hsh Hst0)
      as [[Hlen _] _].
    destruct (lookup_lt_is_Some_2
                (current (evolve sample c (Datatypes.S t)
                                 (initial_state dp M S seed glob))) s)
      as [row Hrow]; [lia|].
    exists row. rewrite Hrow. auto.
Qed.
End SeriesMeaning.

Lemma series_holds_site_sums_witness :
  shaped 2 3 (choice_factors (A:=float) (Gen:=nat) (Glob:=nat)
                             [1%float] [1%float] 2 3 2) /\
  (0 < 4)%nat /\
  exists r,
    choice_run (A:=float) (Gen:=nat) 4 [1%float] [1%float] 3 2 2 1%float 0 0%nat
      = Returned r /\
    shape2 2 4 (res_N r).
Proof.
  split; [apply choice_factors_shaped|]. split; [lia|].
  destruct (series_holds_site_sums
              (choice_factors (A:=float) (Gen:=nat) (Glob:=nat)
                              [1%float] [1%float] 2 3 2)
              4 3 2 1%float 0 0%nat) as (r & Hrun & Hsh & _).
  - apply choice_factors_shaped.
  - lia.
  - exists r. split; [exact Hrun|exact Hsh].
Defined.

Section GrowthRatesReal.
Local Open Scope R_scope.

(** From the first entry of a species' series and its growth rates, the
    series is recovered: when no entry of the row is 0, the rates are one
    fewer than the entries, and entry [t] is entry [0] times the product of
    the first [t] rates. *)
Theorem growth_rates_rebuild_series (N : list (list R)) (s : nat)
    (row : list R) :
  N !! s = Some row -> Forall (fun x => x <> 0) row ->
  exists rates,
    growth_rates N !! s = Some rates /\
    length rates = (length row - 1)%nat /\
    forall t x0 xt,
      row !! 0%nat = Some x0 -> row !! t = Some xt ->
      xt = x0 * Rprod (take t rates).
Proof.
  intros Hrow Hnz.
  assert (Hrates : growth_rates N !! s =
                   Some (zip_with Rdiv (tail row) (take (length row - 1) row))).
  { unfold growth_rates. rewrite list_lookup_fmap, Hrow. reflexivity. }
  eexists. split; [exact Hrates|]. split.
  - rewrite length_zip_with, length_take. destruct row; simpl; lia.
  - intros t x0 xt H0. revert xt. induction t as [|t IH]; intros xt Ht.
    + rewrite H0 in Ht. injection Ht as <-. simpl. lra.
    + destruct (lookup_lt_is_Some_2 row t) as [x Hx];
        [apply lookup_lt_Some in Ht; lia|].
      assert (Hq : zip_with Rdiv (tail row) (take (length row - 1) row) !! t
                   = Some (xt / x)).
      { rewrite lookup_zip_with, lookup_tail, Ht. simpl.
        rewrite lookup_take_lt by (apply lookup_lt_Some in Ht; lia).
        rewrite Hx. reflexivity. }
      rewrite (take_S_r _ _ _ Hq), Rprod_app, <- Rmult_assoc, <- (IH x Hx).
      simpl.
      assert (x <> 0) by exact (proj1 (Forall_lookup _ _) Hnz t x Hx).
      field. assumption.
Qed.

Lemma growth_rates_rebuild_series_witness :
  [[1; 2; 6]]%R !! 0%nat = Some [1; 2; 6]%R /\
  Forall (fun x => x <> 0) [1; 2; 6]%R /\
  exists rates,
    growth_rates [[1; 2; 6]]%R !! 0%nat = Some rates /\
    length rates = 2%nat.
Proof.
  split; [reflexivity|].
  assert (Hnz : Forall (fun x => x <> 0) [1; 2; 6]%R)
    by (repeat constructor; lra).
  split; [exact Hnz|].
  destruct (growth_rates_rebuild_series [[1; 2; 6]]%R 0 [1; 2; 6]%R eq_refl Hnz)
    as (rates & Hr & Hlen & _).
  exists rates. split; [exact Hr|exact Hlen].
Defined.
End GrowthRatesReal.

(** ** Every non-spatial cell keeps its series positive *)

Section CellsPositive.
Local Open Scope R_scope.
Context {Gen Glob : Type} (Smp : Sampler R Gen Glob).

Lemma accumulate_positive (sample : factor_sampler R Gen Glob) dp M Sp c seed glob :
  SamplerLaws Smp -> 0 < c -> (0 < M)%nat -> (0 < dp)%nat ->
  shaped Sp M sample -> positive_factors sample ->
  exists r,
    accumulate sample dp M Sp c seed glob = Returned r /\ positive2 (res_N r).
Proof.
  intros laws Hc HM Hdp Hsh Hg.
  rewrite accumulate_returns by exact Hdp. cbn zeta.
  eexists. split; [reflexivity|]. cbn [res_N].
  apply evolve_N_positive; try assumption.
  intros s m z Hz.
  pose proof (initial_abundance_range Smp laws _ _ _ _ _ _ Hz). lia.
Qed.

Lemma choice_factors_positive values p Sp M tau :
  SamplerLaws Smp -> values <> [] -> Forall (Rlt 0) values ->
  positive_factors (choice_factors values p Sp M tau).
Proof.
  intros laws Hne Hpos w s m g.
  apply (choice_factors_Forall Smp laws); assumption.
Qed.

(** With generators that draw as numpy documents, on arguments they
    accept (a seed [>= 0]; for [rng.choice], a non-empty list of positive
    values and a probability vector over it; for the log-uniform sampler,
    bounds [0 < low <= high]), with [c > 0], at least one site and
    [dp >= 1]: the run of the three-value and binary cells after their
    parameters, and the run of the log-uniform cell after its bounds, return
    a series whose every entry is positive. *)
Theorem runs_keep_series_positive (dp : nat) (values p : list R)
    (low high : R) (M tau S : nat) (c : R) (seed : Z) (glob : Glob) :
  SamplerLaws Smp -> 0 < c -> (0 < M)%nat -> (0 < dp)%nat -> (0 <= seed)%Z ->
  (values <> [] -> Forall (Rlt 0) values ->
   length p = length values -> Forall (Rle 0) p -> Rsum p = 1 ->
   exists r,
     choice_run dp values p M tau S c seed glob = Returned r /\
     positive2 (res_N r)) /\
  (0 < low <= high ->
   exists r,
     log_uniform_run dp low high M tau S c seed glob = Returned r /\
     positive2 (res_N r)).
Proof.
  intros laws Hc HM Hdp Hseed. split.
  - intros Hne Hpos _ _ _. unfold choice_run.
    apply accumulate_positive; try assumption.
    + apply choice_factors_shaped.
    + apply choice_factors_positive; assumption.
  - intros _. unfold log_uniform_run.
    apply accumulate_positive; try assumption.
    + apply log_uniform_shaped.
    + apply log_uniform_positive.
Qed.
End CellsPositive.

Lemma runs_keep_series_positive_witness :
  SamplerLaws (counter_sampler (A:=R)) /\ (0 < 1)%R /\ (0 < 3)%nat /\
  (0 < 4)%nat /\ (0 <= 0)%Z /\
  [/ 2; 1; 2]%R <> [] /\ Forall (Rlt 0) [/ 2; 1; 2]%R /\
  length [/ 4; / 2; / 4]%R = length [/ 2; 1; 2]%R /\
  Forall (Rle 0) [/ 4; / 2; / 4]%R /\ Rsum [/ 4; / 2; / 4]%R = 1%R /\
  exists r,
    choice_run (A:=R) (Gen:=nat) 4 [/ 2; 1; 2]%R [/ 4; / 2; / 4]%R 3 2 2 1%R
               0 0%nat = Returned r /\
    positive2 (res_N r).
Proof.
  assert (Hc : (0 < 1)%R) by lra.
  assert (HM : (0 < 3)%nat) by lia.
  assert (Hdp : (0 < 4)%nat) by lia.
  assert (Hseed : (0 <= 0)%Z) by lia.
  assert (Hne : [/ 2; 1; 2]%R <> []) by discriminate.
  assert (Hpos : Forall (Rlt 0) [/ 2; 1; 2]%R) by (repeat constructor; lra).
  assert (Hlen : length [/ 4; / 2; / 4]%R = length [/ 2; 1; 2]%R)
    by reflexivity.
  assert (Hp : Forall (Rle 0) [/ 4; / 2; / 4]%R) by (repeat constructor; lra).
  assert (Hsum : Rsum [/ 4; / 2; / 4]%R = 1%R) by (simpl; lra).
  do 5 (split; [assumption || apply counter_sampler_laws|]).
  do 5 (split; [assumption|]).
  destruct (runs_keep_series_positive counter_sampler 4 [/ 2; 1; 2]%R
              [/ 4; / 2; / 4]%R 1%R 2%R 3 2 2 1%R 0 0%nat
              counter_sampler_laws Hc HM Hdp Hseed) as [H1 _].
  exact (H1 Hne Hpos Hlen Hp Hsum).
Defined.

(** ** More on the spatial cell *)

Section SpatialRunFacts.
Context {A Gen Glob : Type} `{Arith A} `{Sampler A Gen Glob}.

(** What a run of the spatial cell returns, in one statement. *)
Lemma spatial_run_inv (dp : nat) (values p : list A) (L : nat) (c d : A)
    (seed : Z) (glob : Glob) :
  (0 < dp)%nat ->
  exists st,
    spatial_run dp values p L c d seed glob = Returned st /\
    shape2 (L * L) dp (allxs st) /\
    rng (lat_world st) =
      after_draws (rng_choice values p) ((dp - 1) * (L * L)) (default_rng seed) /\
    np_random (lat_world st) = after_draws (np_random_randint 1 10) (L * L) glob /\
    (forall i, (i < L * L)%nat ->
       at2 (allxs st) i 0 =
       Some (of_int (nth_draw (np_random_randint 1 10) i glob))) /\
    forall t i j, (1 <= t < dp)%nat -> (i < L)%nat -> (j < L)%nat ->
      is_Some (at2 (allxs st) (i * L + j) t) /\
      at2 (allxs st) (i * L + j) t =
      diffused L c d (allxs st) t (batch values p L seed t) i j.
Proof.
  intros Hdp. unfold spatial_run.
  rewrite initial_lattice_state_eq by exact Hdp. cbn [mbind outcome_bind].
  destruct (lattice_evolve_inv dp values p L c d seed
              (Lattice (World (default_rng seed)
                              (after_draws (np_random_randint 1 10) (L * L) glob))
                       (set_column 0 (map of_int (initial_lattice L glob).1)
                                   (zeros (L * L) dp)))
              (dp - 1))
    as (st & Hrun & Hsh & Hrng & Hglob & Hcol0 & Hval).
  { apply initial_lattice_shape. }
  { reflexivity. }
  { lia. }
  exists st. split; [exact Hrun|]. split; [exact Hsh|].
  split; [exact Hrng|]. split; [exact Hglob|]. split.
  - intros i Hi. rewrite Hcol0. cbn [allxs].
    rewrite (set_column_at2 0 (L * L) dp); try assumption.
    + simpl. rewrite list_lookup_fmap. unfold initial_lattice.
      rewrite draws_lookup by exact Hi. reflexivity.
    + rewrite length_map. apply draws_length.
    + apply zeros_shape.
  - intros t i j Ht Hi Hj. apply Hval; [lia|exact Hi|exact Hj].
Qed.

(** A run of the spatial cell with [dp >= 1] takes the [L * L] initial values
    from numpy's global generator and [(dp - 1) * L * L] factors from the
    generator made from the seed, and it never rewrites the initial values:
    the first column of the array it returns holds them, in the order
    drawn. *)
Theorem spatial_run_generators (dp : nat) (values p : list A) (L : nat)
    (c d : A) (seed : Z) (glob : Glob) :
  (0 < dp)%nat ->
  exists st,
    spatial_run dp values p L c d seed glob = Returned st /\
    rng (lat_world st) =
      after_draws (rng_choice values p) ((dp - 1) * (L * L)) (default_rng seed) /\
    np_random (lat_world st) = after_draws (np_random_randint 1 10) (L * L) glob /\
    forall i, (i < L * L)%nat ->
      at2 (allxs st) i 0 =
      Some (of_int (nth_draw (np_random_randint 1 10) i glob)).
Proof.
  intros Hdp.
  destruct (spatial_run_inv dp values p L c d seed glob Hdp)
    as (st & Hrun & _ & Hrng & Hglob & Hcol0 & _).
  exists st. auto.
Qed.
End SpatialRunFacts.

Lemma spatial_run_generators_witness :
  (0 < 3)%nat /\
  exists st,
    spatial_run (A:=float) (Gen:=nat) 3 [1%float] [1%float] 2 1%float 0%float
                0 7%nat = Returned st /\
    np_random (lat_world st) = after_draws (np_random_randint 1 10) (2 * 2) 7%nat.
Proof.
  split; [lia|].
  destruct (spatial_run_generators (A:=float) (Gen:=nat) (Glob:=nat)
              3 [1%float] [1%float] 2 1%float 0%float 0 7%nat)
    as (st & Hrun & _ & Hglob & _); [lia|].
  exists st. split; [exact Hrun|exact Hglob].
Defined.

Section SpatialReal.
Local Open Scope R_scope.
Context {Gen Glob : Type} (Smp : Sampler R Gen Glob).

Lemma diffusion_R (c d x xa xb xc xd gi : R) :
  diffusion c d x xa xb xc xd gi =
  ((1 - 4 * d) * x + d * (xa + xb + xc + xd)) * gi + c.
Proof. reflexivity. Qed.

(** Without diffusion ([d = 0]) the spatial cell is the non-spatial
    recurrence at [tau = 1]: in the array a run returns, every cell at step
    [t] holds its own value at step [t - 1] times its factor, plus [c]. *)
Theorem spatial_run_without_diffusion (dp : nat) (values p : list R) (L : nat)
    (c : R) (seed : Z) (glob : Glob) :
  (0 < dp)%nat ->
  exists st,
    spatial_run dp values p L c 0 seed glob = Returned st /\
    forall t i j, (1 <= t < dp)%nat -> (i < L)%nat -> (j < L)%nat ->
      exists x,
        at2 (allxs st) (i * L + j) (t - 1) = Some x /\
        at2 (allxs st) (i * L + j) t =
        Some (x * nth_draw (rng_choice values p)
                           ((t - 1) * (L * L) + (i * L + j)) (default_rng seed)
              + c).
Proof.
  intros Hdp.
  destruct (spatial_run_inv dp values p L c 0 seed glob Hdp)
    as (st & Hrun & _ & _ & _ & _ & Hval).
  exists st. split; [exact Hrun|]. intros t i j Ht Hi Hj.
  destruct (Hval t i j Ht Hi Hj) as [[v Hv] Heq].
  rewrite Hv in Heq. symmetry in Heq.
  apply diffused_Some in Heq
    as (x & xa & xb & xc & xd & gi & Hx & _ & _ & _ & _ & Hgi & ->).
  rewrite batch_lookup in Hgi by (apply cell_index_lt; assumption).
  injection Hgi as <-.
  exists x. split; [exact Hx|]. rewrite Hv. f_equal.
  rewrite diffusion_R. ring.
Qed.

(** With [0 <= d <= 1/4], [c > 0], positive values to choose the factors
    from and generators that draw as numpy documents, every entry of the
    array a run of the spatial cell returns is positive. *)
Theorem spatial_run_positive (dp : nat) (values p : list R) (L : nat)
    (c d : R) (seed : Z) (glob : Glob) :
  SamplerLaws Smp -> (0 < dp)%nat -> 0 < c -> 0 <= d <= / 4 ->
  values <> [] -> Forall (Rlt 0) values ->
  exists st,
    spatial_run dp values p L c d seed glob = Returned st /\
    positive2 (allxs st).
Proof.
  intros laws Hdp Hc Hd Hne Hpos.
  destruct (spatial_run_inv dp values p L c d seed glob Hdp)
    as (st & Hrun & Hsh & _ & _ & Hcol0 & Hval).
  exists st. split; [exact Hrun|].
  assert (Hcol : forall t ind x, at2 (allxs st) ind t = Some x -> 0 < x).
  { induction t as [|t IH]; intros ind x Hx.
    - destruct (at2_shape2 _ _ _ _ _ _ Hsh Hx) as [Hind _].
      rewrite (Hcol0 ind Hind) in Hx. injection Hx as <-.
      cbn [of_int Arith_R]. apply IZR_lt.
      pose proof (np_random_randint_range 1 10
                    (after_draws (np_random_randint 1 10) ind glob)) as Hr.
      unfold nth_draw. lia.
    - destruct (at2_shape2 _ _ _ _ _ _ Hsh Hx) as [Hind Ht].
      destruct (cell_of_index L ind Hind) as (i & j & Hi & Hj & ->).
      destruct (Hval (Datatypes.S t) i j) as [_ Heq]; [lia|exact Hi|exact Hj|].
      rewrite Hx in Heq. symmetry in Heq.
      apply diffused_Some in Heq
        as (y & ya & yb & yc & yd & gi & Hy & Hya & Hyb & Hyc & Hyd & Hgi & ->).
      replace (Datatypes.S t - 1)%nat with t in * by lia.
      apply IH in Hy, Hya, Hyb, Hyc, Hyd.
      rewrite batch_lookup in Hgi by (apply cell_index_lt; assumption).
      injection Hgi as <-.
      set (gi := nth_draw (rng_choice values p) _ (default_rng seed)).
      assert (Hg : 0 < gi).
      { unfold gi, nth_draw.
        apply (proj1 (List.Forall_forall (Rlt 0) values) Hpos).
        apply rng_choice_elem, Hne. }
      rewrite diffusion_R.
      assert (0 <= (1 - 4 * d) * y) by (apply Rmult_le_pos; lra).
      assert (0 <= d * (ya + yb + yc + yd)) by (apply Rmult_le_pos; lra).
      assert (0 <= ((1 - 4 * d) * y + d * (ya + yb + yc + yd)) * gi)
        by (apply Rmult_le_pos; lra).
      lra. }
  intros ind t x Hx. exact (Hcol t ind x Hx).
Qed.
End SpatialReal.

Lemma spatial_run_without_diffusion_witness :
  (0 < 3)%nat /\
  exists st,
    spatial_run (A:=R) (Gen:=nat) 3 [/ 2; 1; 2]%R [/ 4; / 2; / 4]%R 2 1%R 0%R
                0 0%nat = Returned st.
Proof.
  split; [lia|].
  assert (Hdp : (0 < 3)%nat) by lia.
  destruct (spatial_run_without_diffusion (Gen:=nat) (Glob:=nat) counter_sampler
              3 [/ 2; 1; 2]%R [/ 4; / 2; / 4]%R 2 1%R 0 0%nat Hdp)
    as (st & Hrun & _).
  exists st. exact Hrun.
Defined.

Lemma spatial_run_positive_witness :
  SamplerLaws (counter_sampler (A:=R)) /\ (0 < 3)%nat /\ (0 < 1)%R /\
  (0 <= / 8 <= / 4)%R /\
  exists st,
    spatial_run (A:=R) (Gen:=nat) 3 [/ 2; 1; 2]%R [/ 4; / 2; / 4]%R 2 1%R (/ 8)%R
                0 0%nat = Returned st /\
    positive2 (allxs st).
Proof.
  assert (Hdp : (0 < 3)%nat) by lia.
  assert (Hc : (0 < 1)%R) by lra.
  assert (Hd : (0 <= / 8 <= / 4)%R) by lra.
  assert (Hne : [/ 2; 1; 2]%R <> []) by discriminate.
  assert (Hpos : Forall (Rlt 0) [/ 2; 1; 2]%R) by (repeat constructor; lra).
  split; [apply counter_sampler_laws|]. split; [exact Hdp|].
  split; [exact Hc|]. split; [exact Hd|].
  exact (spatial_run_positive counter_sampler 3 [/ 2; 1; 2]%R [/ 4; / 2; / 4]%R
           2 1%R (/ 8)%R 0 0%nat counter_sampler_laws Hdp Hc Hd Hne Hpos).
Defined.

(** ** Sums over the lattice *)

Section LatticeSums.
Local Open Scope R_scope.

Lemma Rsum_perm (l l' : list R) : Permutation l l' -> Rsum l = Rsum l'.
Proof.
  induction 1 as [|x l l' _ IH|x y l|l l' l'' _ IH1 _ IH2]; simpl.
  - reflexivity.
  - fold (Rsum l) (Rsum l'). rewrite IH. reflexivity.
  - fold (Rsum l). lra.
  - rewrite IH1. exact IH2.
Qed.

Lemma Rsum_map_ext {T : Type} (f f' : T -> R) (l : list T) :
  (forall x, In x l -> f x = f' x) -> Rsum (map f l) = Rsum (map f' l).
Proof. intros Hext. f_equal. apply map_ext_in, Hext. Qed.

Lemma Rsum_map_plus {T : Type} (f f' : T -> R) (l : list T) :
  Rsum (map (fun x => f x + f' x) l) = Rsum (map f l) + Rsum (map f' l).
Proof.
  induction l as [|x l IH]; simpl; [lra|].
  fold (Rsum (map (fun x => f x + f' x) l)) (Rsum (map f l)) (Rsum (map f' l)).
  rewrite IH. lra.
Qed.

Lemma Rsum_map_scal {T : Type} (k : R) (f : T -> R) (l : list T) :
  Rsum (map (fun x => k * f x) l) = k * Rsum (map f l).
Proof.
  induction l as [|x l IH]; simpl; [lra|].
  fold (Rsum (map (fun x => k * f x) l)) (Rsum (map f l)).
  rewrite IH. lra.
Qed.

Lemma Rsum_map_const {T : Type} (c : R) (l : list T) :
  Rsum (map (fun _ => c) l) = INR (length l) * c.
Proof.
  induction l as [|x l IH]; [simpl; lra|].
  cbn [map Rsum fold_right]. fold (Rsum (map (fun _ : T => c) l)).
  rewrite IH, length_cons, S_INR. lra.
Qed.

Lemma Rsum_pairs (l1 l2 : list nat) (F : nat -> nat -> R) :
  Rsum (map (fun ij : nat * nat => F ij.1 ij.2)
            (flat_map (fun i => map (fun j => (i, j)) l2) l1)) =
  double_sum l1 l2 F.
Proof.
  unfold double_sum. induction l1 as [|i l1 IH]; [reflexivity|].
  cbn [flat_map map]. rewrite map_app, Rsum_app, IH, map_map.
  cbn [Rsum fold_right]. reflexivity.
Qed.

(** The sum over the cells, row by row. *)
Lemma Rsum_cells (L : nat) (F : nat -> nat -> R) :
  Rsum (map (fun ij : nat * nat => F ij.1 ij.2) (cells L)) =
  double_sum (seq 0 L) (seq 0 L) F.
Proof. apply Rsum_pairs. Qed.

Lemma double_sum_ext (l1 l2 : list nat) (F F' : nat -> nat -> R) :
  (forall i j, In i l1 -> In j l2 -> F i j = F' i j) ->
  double_sum l1 l2 F = double_sum l1 l2 F'.
Proof.
  intros Hext. unfold double_sum. apply Rsum_map_ext. intros i Hi.
  apply Rsum_map_ext. intros j Hj. apply Hext; assumption.
Qed.

Lemma double_sum_plus (l1 l2 : list nat) (F F' : nat -> nat -> R) :
  double_sum l1 l2 (fun i j => F i j + F' i j) =
  double_sum l1 l2 F + double_sum l1 l2 F'.
Proof.
  unfold double_sum. rewrite <- Rsum_map_plus. apply Rsum_map_ext.
  intros i _. apply Rsum_map_plus.
Qed.

Lemma double_sum_scal (l1 l2 : list nat) (k : R) (F : nat -> nat -> R) :
  double_sum l1 l2 (fun i j => k * F i j) = k * double_sum l1 l2 F.
Proof.
  unfold double_sum. rewrite <- Rsum_map_scal. apply Rsum_map_ext.
  intros i _. apply Rsum_map_scal.
Qed.

Lemma double_sum_const (l1 l2 : list nat) (c : R) :
  double_sum l1 l2 (fun _ _ => c) = INR (length l1 * length l2) * c.
Proof.
  unfold double_sum.
  rewrite (Rsum_map_ext _ (fun _ => INR (length l2) * c))
    by (intros i _; apply Rsum_map_const).
  rewrite Rsum_map_const, mult_INR. ring.
Qed.

(** Renaming the rows, or the columns, by a permutation keeps the sum. *)
Lemma double_sum_rows (l1 l2 : list nat) (q : nat -> nat)
    (F : nat -> nat -> R) :
  Permutation (map q l1) l1 ->
  double_sum l1 l2 (fun i j => F (q i) j) = double_sum l1 l2 F.
Proof.
  intros Hperm. unfold double_sum.
  rewrite <- (map_map q (fun i => Rsum (map (F i) l2))).
  apply Rsum_perm, Permutation_map, Hperm.
Qed.

Lemma double_sum_columns (l1 l2 : list nat) (q : nat -> nat)
    (F : nat -> nat -> R) :
  Permutation (map q l2) l2 ->
  double_sum l1 l2 (fun i j => F i (q j)) = double_sum l1 l2 F.
Proof.
  intros Hperm. unfold double_sum. apply Rsum_map_ext. intros i _.
  rewrite <- (map_map q (F i)).
  apply Rsum_perm, Permutation_map, Hperm.
Qed.

(** On the torus, stepping back, or forth, permutes the indices. *)
Lemma before_permutes (L : nat) :
  Permutation (map (before L) (seq 0 L)) (seq 0 L).
Proof.
  destruct L as [|n]; [reflexivity|].
  rewrite (seq_S n 0) at 2. cbn [seq map].
  rewrite <- seq_shift, map_map.
  rewrite (map_ext (fun k => before (Datatypes.S n) (Datatypes.S k)) (fun k => k)).
  - rewrite map_id. unfold before. cbn [Nat.eqb].
    replace (Datatypes.S n - 1)%nat with n by lia.
    apply Permutation_cons_append.
  - intros k. unfold before. simpl. lia.
Qed.

Lemma after_permutes (L : nat) :
  Permutation (map (after L) (seq 0 L)) (seq 0 L).
Proof.
  destruct L as [|n]; [reflexivity|].
  rewrite (seq_S n 0) at 1. rewrite map_app. cbn [map].
  rewrite (map_ext_in (after (Datatypes.S n)) Datatypes.S).
  - rewrite seq_shift. unfold after. simpl (0 + n)%nat.
    replace (n + 1 =? Datatypes.S n)%nat with true
      by (symmetry; apply Nat.eqb_eq; lia).
    symmetry. apply (Permutation_cons_append (seq 1 n) 0%nat).
  - intros k Hk. apply in_seq in Hk. unfold after.
    destruct (Nat.eqb_spec (k + 1) (Datatypes.S n)); lia.
Qed.
End LatticeSums.

Section SweepReal.
Local Open Scope R_scope.
Variables (L dp : nat) (c d gamma : R) (t : nat) (a : list (list R)).
Hypothesis Ht : (1 <= t < dp)%nat.
Hypothesis Ha : shape2 (L * L) dp a.

Lemma replicate_factor_length : length (replicate (L * L) gamma) = (L * L)%nat.
Proof. apply length_replicate. Qed.

Lemma diffused_value (i j : nat) :
  (i < L)%nat -> (j < L)%nat ->
  diffused L c d a t (replicate (L * L) gamma) i j =
  Some (((1 - 4 * d) * (cell_value L a (t - 1)) i j
         + d * ((cell_value L a (t - 1)) (before L i) j + (cell_value L a (t - 1)) i (after L j)
                + (cell_value L a (t - 1)) (after L i) j + (cell_value L a (t - 1)) i (before L j))) * gamma + c).
Proof.
  intros Hi Hj.
  destruct (diffused_is_Some L dp c d t (replicate (L * L) gamma) Ht
              replicate_factor_length a i j Ha Hi Hj) as [v Hv].
  rewrite Hv.
  apply diffused_Some in Hv
    as (x & xa & xb & xc & xd & gi & Hx & Hxa & Hxb & Hxc & Hxd & Hgi & ->).
  unfold cell_value. rewrite Hx, Hxa, Hxb, Hxc, Hxd. cbn [from_option id].
  rewrite lookup_replicate_2 in Hgi by (apply cell_index_lt; assumption).
  injection Hgi as <-. rewrite diffusion_R. reflexivity.
Qed.

Lemma sweep_with_one_factor :
  exists a',
    lattice_sweep L c d t (replicate (L * L) gamma) a = Returned a' /\
    shape2 (L * L) dp a' /\
    forall i j, (i < L)%nat -> (j < L)%nat ->
      at2 a' (i * L + j) t =
      Some (((1 - 4 * d) * (cell_value L a (t - 1)) i j
             + d * ((cell_value L a (t - 1)) (before L i) j + (cell_value L a (t - 1)) i (after L j)
                    + (cell_value L a (t - 1)) (after L i) j + (cell_value L a (t - 1)) i (before L j))) * gamma + c).
Proof.
  rewrite (lattice_sweep_cells L c d t).
  destruct (lattice_sweep_in_spec L dp c d t (replicate (L * L) gamma) Ht
              replicate_factor_length a (cells L) Ha (Permutation_refl _))
    as (a' & Hrun & Hsh & _ & Hnew).
  exists a'. split; [exact Hrun|]. split; [exact Hsh|].
  intros i j Hi Hj. rewrite (Hnew i j Hi Hj). apply diffused_value; assumption.
Qed.

(** A lattice whose cells all hold [v] before a sweep, swept with one and
    the same factor [gamma] for every cell, holds [v * gamma + c] in every
    cell after it, whatever [d]: diffusion between equal neighbours
    cancels. *)
Theorem uniform_lattice_stays_uniform (v : R) :
  (forall ind, (ind < L * L)%nat -> at2 a ind (t - 1) = Some v) ->
  exists a',
    lattice_sweep L c d t (replicate (L * L) gamma) a = Returned a' /\
    forall ind, (ind < L * L)%nat -> at2 a' ind t = Some (v * gamma + c).
Proof.
  intros Hv. destruct sweep_with_one_factor as (a' & Hrun & _ & Hnew).
  exists a'. split; [exact Hrun|]. intros ind Hind.
  destruct (cell_of_index L ind Hind) as (i & j & Hi & Hj & ->).
  rewrite (Hnew i j Hi Hj). unfold cell_value.
  pose proof (before_lt L i Hi). pose proof (after_lt L i Hi).
  pose proof (before_lt L j Hj). pose proof (after_lt L j Hj).
  rewrite !Hv by (apply cell_index_lt; assumption).
  unfold from_option, Datatypes.id. f_equal. ring.
Qed.

(** Diffusion moves abundance between the cells and creates none: after a
    sweep with one and the same factor [gamma] for every cell, the sum of
    the lattice is [gamma] times the sum before the sweep, plus [c] for each
    of the [L * L] cells, whatever [d]. *)
Theorem diffusion_conserves_total :
  exists a',
    lattice_sweep L c d t (replicate (L * L) gamma) a = Returned a' /\
    lattice_total L a' t =
    gamma * lattice_total L a (t - 1) + INR (L * L) * c.
Proof.
  destruct sweep_with_one_factor as (a' & Hrun & _ & Hnew).
  exists a'. split; [exact Hrun|]. unfold lattice_total.
  set (l := seq 0 L).
  assert (Hold : Rsum (map (fun ij : nat * nat =>
                              default 0 (at2 a (ij.1 * L + ij.2) (t - 1)))
                           (cells L)) = double_sum l l (cell_value L a (t - 1)))
    by apply (Rsum_cells L (cell_value L a (t - 1))).
  rewrite Hold.
  pose (Fnew := fun i j : nat =>
                  gamma * (1 - 4 * d) * (cell_value L a (t - 1)) i j
                  + (gamma * d * (cell_value L a (t - 1)) (before L i) j
                     + (gamma * d * (cell_value L a (t - 1)) i (after L j)
                        + (gamma * d * (cell_value L a (t - 1)) (after L i) j
                           + (gamma * d * (cell_value L a (t - 1)) i (before L j) + c))))).
  rewrite (Rsum_map_ext _ (fun ij : nat * nat => Fnew ij.1 ij.2)).
  - rewrite (Rsum_cells L Fnew). fold l. unfold Fnew.
    rewrite (double_sum_plus l l (fun i j => gamma * (1 - 4 * d) * (cell_value L a (t - 1)) i j)).
    rewrite (double_sum_plus l l (fun i j => gamma * d * (cell_value L a (t - 1)) (before L i) j)).
    rewrite (double_sum_plus l l (fun i j => gamma * d * (cell_value L a (t - 1)) i (after L j))).
    rewrite (double_sum_plus l l (fun i j => gamma * d * (cell_value L a (t - 1)) (after L i) j)).
    rewrite (double_sum_plus l l (fun i j => gamma * d * (cell_value L a (t - 1)) i (before L j))
                             (fun _ _ => c)).
    rewrite (double_sum_scal l l (gamma * (1 - 4 * d)) (cell_value L a (t - 1))).
    rewrite (double_sum_scal l l (gamma * d) (fun i j => (cell_value L a (t - 1)) (before L i) j)).
    rewrite (double_sum_scal l l (gamma * d) (fun i j => (cell_value L a (t - 1)) i (after L j))).
    rewrite (double_sum_scal l l (gamma * d) (fun i j => (cell_value L a (t - 1)) (after L i) j)).
    rewrite (double_sum_scal l l (gamma * d) (fun i j => (cell_value L a (t - 1)) i (before L j))).
    rewrite (double_sum_rows l l (before L) (cell_value L a (t - 1))) by apply before_permutes.
    rewrite (double_sum_rows l l (after L) (cell_value L a (t - 1))) by apply after_permutes.
    rewrite (double_sum_columns l l (before L) (cell_value L a (t - 1))) by apply before_permutes.
    rewrite (double_sum_columns l l (after L) (cell_value L a (t - 1))) by apply after_permutes.
    rewrite double_sum_const. unfold l. rewrite length_seq. ring.
  - intros [i j] Hin. apply in_cells in Hin as [Hi Hj]. cbn [fst snd].
    rewrite (Hnew i j Hi Hj). unfold Fnew, from_option at 1, Datatypes.id. ring.
Qed.
End SweepReal.

Lemma uniform_lattice_stays_uniform_witness :
  (1 <= 1 < 2)%nat /\
  shape2 (2 * 2) 2 [[3; 0]; [3; 0]; [3; 0]; [3; 0]]%R /\
  exists a',
    lattice_sweep 2 1%R (/ 8)%R 1 (replicate (2 * 2) 2%R)
                  [[3; 0]; [3; 0]; [3; 0]; [3; 0]]%R = Returned a' /\
    at2 a' 3 1 = Some (3 * 2 + 1)%R.
Proof.
  assert (Ht : (1 <= 1 < 2)%nat) by lia.
  assert (Ha : shape2 (2 * 2) 2 [[3; 0]; [3; 0]; [3; 0]; [3; 0]]%R)
    by (split; [reflexivity|repeat constructor]).
  split; [exact Ht|]. split; [exact Ha|].
  destruct (uniform_lattice_stays_uniform 2 2 1%R (/ 8)%R 2%R 1
              [[3; 0]; [3; 0]; [3; 0]; [3; 0]]%R Ht Ha 3%R) as (a' & Hrun & Hval).
  - intros ind Hind.
    destruct ind as [|[|[|[|ind]]]]; [reflexivity|reflexivity|reflexivity|reflexivity|].
    simpl in Hind. lia.
  - exists a'. split; [exact Hrun|]. apply Hval. simpl. lia.
Defined.

Lemma diffusion_conserves_total_witness :
  (1 <= 1 < 2)%nat /\
  shape2 (2 * 2) 2 [[1; 0]; [2; 0]; [3; 0]; [4; 0]]%R /\
  exists a',
    lattice_sweep 2 1%R (/ 8)%R 1 (replicate (2 * 2) 2%R)
                  [[1; 0]; [2; 0]; [3; 0]; [4; 0]]%R = Returned a' /\
    lattice_total 2 a' 1 =
    (2 * lattice_total 2 [[1; 0]; [2; 0]; [3; 0]; [4; 0]] (1 - 1)
     + INR (2 * 2) * 1)%R.
Proof.
  assert (Ht : (1 <= 1 < 2)%nat) by lia.
  assert (Ha : shape2 (2 * 2) 2 [[1; 0]; [2; 0]; [3; 0]; [4; 0]]%R)
    by (split; [reflexivity|repeat constructor]).
  split; [exact Ht|]. split; [exact Ha|].
  exact (diffusion_conserves_total 2 2 1%R (/ 8)%R 2%R 1
           [[1; 0]; [2; 0]; [3; 0]; [4; 0]]%R Ht Ha).
Defined.

(** ** The indices of the spatial cell *)

Section SpatialIndices.
Context {A : Type} `{Arith A}.

(** In a sweep at a step [1 <= t < dp], over an array of [L * L] rows and
    [dp] columns with [L * L] factors, no index is out of range.  For every
    cell [(i, j)] of the lattice, each row index the body computes,
    wrapped or not ([ind], [ind_a], [ind_b], [ind_c], [ind_d]), lies in
    [[0, L * L)]: none is negative, which Python would read from the end of
    the array, and none is past the end; the body run on the cell performs
    its reads and its write, of entry [(i * L + j, t)]; and the two loops
    together return an array of the same shape. *)
Theorem lattice_sweep_indices_in_range (L dp : nat) (c d : A) (t : nat)
    (g : list A) (a : list (list A)) :
  (1 <= t < dp)%nat -> length g = (L * L)%nat -> shape2 (L * L) dp a ->
  (forall i j, (i < L)%nat -> (j < L)%nat ->
     let row (x y : Z) := (0 <= x * Z.of_nat L + y < Z.of_nat (L * L))%Z in
     row (Z.of_nat i) (Z.of_nat j) /\
     row ((Z.of_nat i - 1) mod Z.of_nat L)%Z (Z.of_nat j) /\
     row (Z.of_nat i) ((Z.of_nat j + 1) mod Z.of_nat L)%Z /\
     row ((Z.of_nat i + 1) mod Z.of_nat L)%Z (Z.of_nat j) /\
     row (Z.of_nat i) ((Z.of_nat j - 1) mod Z.of_nat L)%Z /\
     exists v,
       lattice_update L c d t g a (i, j) = Returned (set2 a (i * L + j) t v)) /\
  exists a', lattice_sweep L c d t g a = Returned a' /\ shape2 (L * L) dp a'.
Proof.
  intros Ht Hg Ha. split.
  - intros i j Hi Hj row.
    assert (Hrow : forall x y, (x < L)%nat -> (y < L)%nat ->
              row (Z.of_nat x) (Z.of_nat y)).
    { intros x y Hx Hy. unfold row.
      pose proof (cell_index_lt L x y Hx Hy). nia. }
    rewrite (wrap_before L i Hi), (wrap_after L i Hi).
    rewrite (wrap_before L j Hj), (wrap_after L j Hj).
    pose proof (before_lt L i Hi). pose proof (after_lt L i Hi).
    pose proof (before_lt L j Hj). pose proof (after_lt L j Hj).
    do 5 (split; [apply Hrow; assumption|]).
    destruct (diffused_is_Some L dp c d t g Ht Hg a i j Ha Hi Hj) as [v Hv].
    exists v.
    exact (lattice_update_spec L dp c d t g Ht Hg a i j v Ha Hi Hj Hv).
  - rewrite lattice_sweep_cells.
    destruct (lattice_sweep_in_spec L dp c d t g Ht Hg a (cells L) Ha
                (Permutation_refl _)) as (a' & Hrun & Hsh & _).
    exists a'. split; [exact Hrun|exact Hsh].
Qed.
End SpatialIndices.

Lemma lattice_sweep_indices_in_range_witness :
  (1 <= 1 < 2)%nat /\ length [1; 1; 1; 1]%float = (2 * 2)%nat /\
  shape2 (2 * 2) 2 [[1; 0]; [2; 0]; [3; 0]; [4; 0]]%float /\
  exists a',
    lattice_sweep 2 1%float 0.125%float 1 [1; 1; 1; 1]%float
                  [[1; 0]; [2; 0]; [3; 0]; [4; 0]]%float = Returned a' /\
    shape2 (2 * 2) 2 a'.
Proof.
  assert (Ht : (1 <= 1 < 2)%nat) by lia.
  assert (Hg : length [1; 1; 1; 1]%float = (2 * 2)%nat) by reflexivity.
  assert (Ha : shape2 (2 * 2) 2 [[1; 0]; [2; 0]; [3; 0]; [4; 0]]%float)
    by (split; [reflexivity|repeat constructor]).
  split; [exact Ht|]. split; [exact Hg|]. split; [exact Ha|].
  exact (proj2 (lattice_sweep_indices_in_range 2 2 1%float 0.125%float 1
                  [1; 1; 1; 1]%float [[1; 0]; [2; 0]; [3; 0]; [4; 0]]%float
                  Ht Hg Ha)).
Defined.

Section ExceedWitness.
Local Open Scope R_scope.

Lemma abundances_exceed_forcing_witness :
  0 < 1 /\ (0 < 3)%nat /\ (0 < 4)%nat /\
  exists r,
    choice_run (A:=R) (Gen:=nat) 4 [/ 2; 1; 2]%R [/ 4; / 2; / 4]%R 3 2 2 1
               0 0%nat = Returned r /\
    forall s t x, (1 <= t)%nat -> at2 (res_N r) s t = Some x -> INR 3 * 1 < x.
Proof.
  assert (Hc : 0 < 1) by lra.
  assert (HM : (0 < 3)%nat) by lia.
  assert (Hdp : (0 < 4)%nat) by lia.
  split; [exact Hc|]. split; [exact HM|]. split; [exact Hdp|].
  destruct (abundances_exceed_forcing (Gen:=nat) (Glob:=nat)
              (choice_factors [/ 2; 1; 2]%R [/ 4; / 2; / 4]%R 2 3 2)
              4 3 2 1 0 0%nat Hc HM Hdp) as (r & Hrun & _ & HN).
  - apply choice_factors_shaped.
  - intros w s m g.
    apply (choice_factors_Forall counter_sampler counter_sampler_laws).
    + discriminate.
    + repeat constructor; lra.
  - intros s m z Hz.
    pose proof (initial_abundance_range counter_sampler counter_sampler_laws
                  _ _ _ _ _ _ Hz).
    lia.
  - exists r. split; [exact Hrun|exact HN].
Defined.
End ExceedWitness.
